(** * RC522 driver (main.ts): a shallow embedding and its verification

    The driver of [src/main.ts] talks to an MFRC522 contactless reader over
    SPI through the MakeCode platform calls [pins.digitalWritePin],
    [pins.spiWrite], [pins.spiRead], [pins.spiPins], [pins.spiFrequency] and
    [input.runningTime].  Those calls are the only contact with the outside
    world; they are taken here as an interface ([Platform]) over an
    arbitrary world type.  Every driver function is a computation in a small
    state-and-trace monad: it threads the module's global variables and the
    world, and it records each platform call, with the value the platform
    answered, as an [event].  The properties below are statements about the
    values returned and the bus traffic recorded.

    Numbers are integers of [Z].  The operators [|], [&] and [~] of the
    source work on the 32-bit signed value of their operands; where the
    source applies them to a value read back from the bus and passes the
    result on ([setBitMask], [clearBitMask], [antennaOn]) they are the
    32-bit [bitOr], [bitAnd] and [bitNot] below.  Where the source only
    masks a number with a constant below 2^31 ([n & 0x04], [ctl & 0x07],
    the framing [(addr << 1) & 0x7E]) or combines such constants, the
    32-bit operator and the one of [Z] give the same number for every
    operand ([bitAnd_mask], [bitOr_small], [framing_32bit]), and the one of
    [Z] is written.  The one loop without a bound of its own, the wait loop of the
    command engine, is followed for as many iterations as a fuel argument
    allows; [communicateWithPICC_returns] and
    [communicateWithPICC_more_fuel] show that the fuel is immaterial once it
    covers the polls that fit in the timeout. *)

From Stdlib Require Import ZArith List Bool Lia String Ascii.
Import ListNotations.

Local Open Scope Z_scope.

(** ** Platform interface *)

(** [DigitalPin] of the MakeCode micro:bit target (edge-connector pins). *)
Inductive DigitalPin : Type :=
| P0 | P1 | P2 | P3 | P4 | P5 | P6 | P7 | P8 | P9 | P10
| P11 | P12 | P13 | P14 | P15 | P16 | P19 | P20.

(** One platform call, as seen on the wire. *)
Inductive event : Type :=
| DigitalWrite (pin : DigitalPin) (level : Z)
| SpiWrite (byte : Z)
| SpiRead (byte : Z)
| SpiPins (miso mosi sck : DigitalPin)
| SpiFrequency (hz : Z)
| RunningTime (ms : Z).

(** The platform calls the driver uses.  [pins.spiWrite] answers a number
    that the driver never looks at, so only its effect is kept. *)
Class Platform (W : Type) : Type := {
  pins_digitalWritePin : DigitalPin -> Z -> W -> W;
  pins_spiWrite : Z -> W -> W;
  pins_spiRead : W -> Z * W;
  pins_spiPins : DigitalPin -> DigitalPin -> DigitalPin -> W -> W;
  pins_spiFrequency : Z -> W -> W;
  input_runningTime : W -> Z * W
}.

(** ** Register map and command codes (main.ts, lines 10-48) *)

Definition CommandReg : Z := 0x01.
Definition CommIEnReg : Z := 0x02.
Definition DivIEnReg : Z := 0x03.
Definition CommIrqReg : Z := 0x04.
Definition DivIrqReg : Z := 0x05.
Definition ErrorReg : Z := 0x06.
Definition Status1Reg : Z := 0x07.
Definition Status2Reg : Z := 0x08.
Definition FIFODataReg : Z := 0x09.
Definition FIFOLevelReg : Z := 0x0A.
Definition ControlReg : Z := 0x0C.
Definition BitFramingReg : Z := 0x0D.
Definition ModeReg : Z := 0x11.
Definition TxControlReg : Z := 0x14.
Definition TModeReg : Z := 0x2A.
Definition TPrescalerReg : Z := 0x2B.
Definition TReloadRegL : Z := 0x2D.
Definition TReloadRegH : Z := 0x2C.
Definition TxAutoReg : Z := 0x15.
Definition RFCfgReg : Z := 0x26.

Definition PCD_IDLE : Z := 0x00.
Definition PCD_AUTHENT : Z := 0x0E.
Definition PCD_RECEIVE : Z := 0x08.
Definition PCD_TRANSMIT : Z := 0x04.
Definition PCD_TRANSCEIVE : Z := 0x0C.
Definition PCD_RESETPHASE : Z := 0x0F.
Definition PCD_CALCCRC : Z := 0x03.

Definition PICC_REQIDL : Z := 0x26.
Definition PICC_REQALL : Z := 0x52.
Definition PICC_ANTICOLL : Z := 0x93.
Definition PICC_SELECTTAG : Z := 0x93.
Definition PICC_AUTHENT1A : Z := 0x60.
Definition PICC_AUTHENT1B : Z := 0x61.
Definition PICC_READ : Z := 0x30.
Definition PICC_WRITE : Z := 0xA0.
Definition PICC_HALT : Z := 0x50.

(** ** The 32-bit operators of the source

    The operators [|], [&] and [~] of the source take the 32-bit signed
    value of each operand (ToInt32) and answer a 32-bit signed number. *)
Definition toInt32 (z : Z) : Z :=
  (z + 2147483648) mod 4294967296 - 2147483648.

Definition bitOr (a b : Z) : Z := toInt32 (Z.lor (toInt32 a) (toInt32 b)).

Definition bitAnd (a b : Z) : Z := toInt32 (Z.land (toInt32 a) (toInt32 b)).

Definition bitNot (a : Z) : Z := toInt32 (Z.lnot (toInt32 a)).

(** A JavaScript number used as a condition: every integer but 0 is true. *)
Definition truthy (n : Z) : bool := negb (n =? 0).

(** The object returned by [communicateWithPICC]. *)
Record CommResult : Type := mkCommResult {
  status : bool;
  backData : list Z;
  backBits : Z
}.

(** ** toHexString (main.ts, lines 122-132) *)

Module Hex.

Local Open Scope string_scope.

(** One digit of [Number.prototype.toString(16)]: lower case. *)
Definition digit (d : Z) : string :=
  match d with
  | 0 => "0" | 1 => "1" | 2 => "2" | 3 => "3" | 4 => "4" | 5 => "5"
  | 6 => "6" | 7 => "7" | 8 => "8" | 9 => "9" | 10 => "a" | 11 => "b"
  | 12 => "c" | 13 => "d" | 14 => "e" | _ => "f"
  end%Z.

(** [t.toString(16)] for [t] between 0 and 255, the range of
    [arr[i] & 0xFF]: one digit below 16, two digits from 16 on. *)
Definition toString16 (t : Z) : string :=
  if (t <? 16)%Z then digit t else digit (t / 16) ++ digit (t mod 16).

(** [String.prototype.toUpperCase] on ASCII text. *)
Definition upperAscii (c : ascii) : ascii :=
  let n := nat_of_ascii c in
  if andb (Nat.leb 97 n) (Nat.leb n 122) then ascii_of_nat (n - 32) else c.

Fixpoint toUpperCase (s : string) : string :=
  match s with
  | EmptyString => EmptyString
  | String c r => String (upperAscii c) (toUpperCase r)
  end.

(** The loop of [toHexString]: [s] is the text built so far, [arr] what is
    left of the array; the separator is added after every element but the
    last one ([i < arr.length - 1]). *)
Fixpoint toHexLoop (arr : list Z) (s : string) : string :=
  match arr with
  | [] => s
  | x :: rest =>
      let t := Z.land x 0xFF in
      let h := toString16 t in
      let h := if Nat.eqb (String.length h) 1 then "0" ++ h else h in
      let s := s ++ h in
      let s := match rest with [] => s | _ :: _ => s ++ ":" end in
      toHexLoop rest s
  end.

Definition toHexString (arr : list Z) : string :=
  toUpperCase (toHexLoop arr "").

End Hex.

Section Driver.

Context {W : Type} `{Platform W}.

(** ** Module state (main.ts, lines 50-55) and the world *)

Record St : Type := mkSt {
  world : W;
  _sdaPin : DigitalPin;
  _rstPin : DigitalPin;
  _sckPin : DigitalPin;
  _mosiPin : DigitalPin;
  _misoPin : DigitalPin;
  _initialized : bool
}.

(** The state of a freshly loaded module over a given world. *)
Definition initialSt (w : W) : St :=
  mkSt w P8 P12 P13 P15 P14 false.

Definition setWorld (w : W) (s : St) : St :=
  mkSt w (_sdaPin s) (_rstPin s) (_sckPin s) (_mosiPin s) (_misoPin s)
       (_initialized s).

(** ** The monad: state, trace of platform calls, and divergence

    [None] stands for a computation that has not finished within the
    fuel given to the one unbounded loop of the driver (the wait loop of
    [communicateWithPICC]); everything else always answers [Some]. *)
Definition M (A : Type) : Type := St -> option (A * St * list event).

Definition ret {A : Type} (a : A) : M A := fun s => Some (a, s, []).

Definition bind {A B : Type} (m : M A) (k : A -> M B) : M B :=
  fun s =>
    match m s with
    | None => None
    | Some (a, s1, e1) =>
        match k a s1 with
        | None => None
        | Some (b, s2, e2) => Some (b, s2, e1 ++ e2)
        end
    end.

Definition spin {A : Type} : M A := fun _ => None.

Notation "x <- m ;; k" := (bind m (fun x => k))
  (at level 61, m at next level, right associativity).
Notation "m ;;; k" := (bind m (fun _ => k))
  (at level 61, right associativity).

Definition gets {A : Type} (f : St -> A) : M A := fun s => Some (f s, s, []).

(** Platform calls, each recorded with what it sent or received. *)
Definition digitalWritePin (pin : DigitalPin) (level : Z) : M unit :=
  fun s => Some (tt, setWorld (pins_digitalWritePin pin level (world s)) s,
                 [DigitalWrite pin level]).

Definition spiWrite (b : Z) : M unit :=
  fun s => Some (tt, setWorld (pins_spiWrite b (world s)) s, [SpiWrite b]).

Definition spiRead : M Z :=
  fun s => let (v, w) := pins_spiRead (world s) in
           Some (v, setWorld w s, [SpiRead v]).

Definition spiPins (miso mosi sck : DigitalPin) : M unit :=
  fun s => Some (tt, setWorld (pins_spiPins miso mosi sck (world s)) s,
                 [SpiPins miso mosi sck]).

Definition spiFrequency (hz : Z) : M unit :=
  fun s => Some (tt, setWorld (pins_spiFrequency hz (world s)) s,
                 [SpiFrequency hz]).

Definition runningTime : M Z :=
  fun s => let (t, w) := input_runningTime (world s) in
           Some (t, setWorld w s, [RunningTime t]).

(** ** Register access layer (main.ts, lines 57-99) *)

Definition spiSetup : M unit :=
  miso <- gets _misoPin ;; mosi <- gets _mosiPin ;; sck <- gets _sckPin ;;
  spiPins miso mosi sck ;;;
  spiFrequency 1000000.

Definition writeRegister (addr val : Z) : M unit :=
  let address := Z.land (Z.shiftl addr 1) 0x7E in
  sda <- gets _sdaPin ;;
  digitalWritePin sda 0 ;;;
  spiWrite address ;;;
  spiWrite val ;;;
  sda <- gets _sdaPin ;;
  digitalWritePin sda 1.

Definition readRegister (addr : Z) : M Z :=
  let address := Z.lor (Z.land (Z.shiftl addr 1) 0x7E) 0x80 in
  sda <- gets _sdaPin ;;
  digitalWritePin sda 0 ;;;
  spiWrite address ;;;
  val <- spiRead ;;
  sda <- gets _sdaPin ;;
  digitalWritePin sda 1 ;;;
  ret val.

Definition setBitMask (reg mask : Z) : M unit :=
  tmp <- readRegister reg ;;
  writeRegister reg (bitOr tmp mask).

Definition clearBitMask (reg mask : Z) : M unit :=
  tmp <- readRegister reg ;;
  writeRegister reg (bitAnd tmp (bitNot mask)).

Definition antennaOn : M unit :=
  val <- readRegister TxControlReg ;;
  if negb (bitAnd val 0x03 =? 0x03)
  then writeRegister TxControlReg (bitOr val 0x03)
  else ret tt.

Definition reset : M unit :=
  writeRegister CommandReg PCD_RESETPHASE.

(** [for (let i = 0; i < data.length; i++) writeRegister(FIFODataReg, data[i])] *)
Fixpoint writeFifo (data : list Z) : M unit :=
  match data with
  | [] => ret tt
  | b :: rest => writeRegister FIFODataReg b ;;; writeFifo rest
  end.

(** ** CRC coprocessor (main.ts, lines 101-120) *)

(** The wait loop of [calculateCRC] with [n] iterations left; it carries
    the function's [return]s. *)
Fixpoint crcPoll (n : nat) : M (list Z) :=
  match n with
  | O => ret [0; 0]
  | S n' =>
      v <- readRegister DivIrqReg ;;
      if truthy (Z.land v 0x04)
      then l <- readRegister 0x22 ;;
           h <- readRegister 0x21 ;;
           ret [l; h]
      else crcPoll n'
  end.

Definition calculateCRC (data : list Z) : M (list Z) :=
  writeRegister CommandReg PCD_IDLE ;;;
  setBitMask DivIrqReg 0x04 ;;;
  writeRegister FIFOLevelReg 0x80 ;;;
  writeFifo data ;;;
  writeRegister CommandReg PCD_CALCCRC ;;;
  crcPoll 255.

(** ** Command engine (main.ts, lines 134-188) *)

(** [(irqEn, waitIRq)] as chosen by lines 140-146. *)
Definition irqMasks (command : Z) : Z * Z :=
  if command =? PCD_TRANSCEIVE then (0x77, 0x30) else (0x12, 0x00).

(** The [while (true)] loop of lines 165-170.  [fuel] bounds the number
    of iterations the model follows; running out of it is [spin]. *)
Fixpoint waitLoop (fuel : nat) (waitIRq start timeoutMs : Z) : M unit :=
  match fuel with
  | O => spin
  | S fuel' =>
      n <- readRegister CommIrqReg ;;
      if truthy (Z.land n waitIRq) then ret tt
      else if truthy (Z.land n 0x01) then ret tt
      else now <- runningTime ;;
           if now - start >? timeoutMs then ret tt
           else waitLoop fuel' waitIRq start timeoutMs
  end.

(** [for (let j = 0; j < fifoLevel; j++) backData.push(readRegister(FIFODataReg))]
    with [n] iterations left. *)
Fixpoint readFifo (n : nat) (backData : list Z) : M (list Z) :=
  match n with
  | O => ret backData
  | S n' =>
      b <- readRegister FIFODataReg ;;
      readFifo n' (backData ++ [b])
  end.

Definition communicateWithPICC (fuel : nat) (command : Z)
    (sendData : list Z) (timeoutMs : Z) : M CommResult :=
  let irqEn := fst (irqMasks command) in
  let waitIRq := snd (irqMasks command) in
  writeRegister CommIEnReg (Z.lor irqEn 0x80) ;;;
  clearBitMask CommIrqReg 0x80 ;;;
  setBitMask FIFOLevelReg 0x80 ;;;
  writeRegister CommandReg PCD_IDLE ;;;
  writeFifo sendData ;;;
  writeRegister CommandReg command ;;;
  (if command =? PCD_TRANSCEIVE
   then setBitMask BitFramingReg 0x80
   else ret tt) ;;;
  start <- runningTime ;;
  waitLoop fuel waitIRq start timeoutMs ;;;
  clearBitMask BitFramingReg 0x80 ;;;
  error <- readRegister ErrorReg ;;
  irq <- readRegister CommIrqReg ;;
  if truthy (Z.land irq 0x01) || truthy (Z.land error 0x1B)
  then ret (mkCommResult false [] 0)
  else
    if command =? PCD_TRANSCEIVE
    then fifoLevel <- readRegister FIFOLevelReg ;;
         backData <- readFifo (Z.to_nat fifoLevel) [] ;;
         ctl <- readRegister ControlReg ;;
         ret (mkCommResult true backData (Z.land ctl 0x07))
    else ret (mkCommResult true [] 0).

(** ** Public operations (main.ts, lines 198-286) *)

Definition setPins (sdaPin rstPin : DigitalPin) : M unit :=
  fun s => Some (tt, mkSt (world s) sdaPin rstPin (_sckPin s) (_mosiPin s)
                          (_misoPin s) (_initialized s), []).

Definition setInitialized (b : bool) : M unit :=
  fun s => Some (tt, mkSt (world s) (_sdaPin s) (_rstPin s) (_sckPin s)
                          (_mosiPin s) (_misoPin s) b, []).

Definition init (sdaPin rstPin : DigitalPin) : M unit :=
  setPins sdaPin rstPin ;;;
  sda <- gets _sdaPin ;;
  digitalWritePin sda 1 ;;;
  rst <- gets _rstPin ;;
  digitalWritePin rst 1 ;;;
  spiSetup ;;;
  reset ;;;
  writeRegister TModeReg 0x8D ;;;
  writeRegister TPrescalerReg 0x3E ;;;
  writeRegister TReloadRegL 30 ;;;
  writeRegister TReloadRegH 0 ;;;
  writeRegister TxAutoReg 0x40 ;;;
  writeRegister ModeReg 0x3D ;;;
  antennaOn ;;;
  setInitialized true.

Definition tagPresent (fuel : nat) : M bool :=
  initialized <- gets _initialized ;;
  if negb initialized then ret false
  else
    writeRegister BitFramingReg 0x07 ;;;
    let req := [PICC_REQIDL] in
    res <- communicateWithPICC fuel PCD_TRANSCEIVE req 200 ;;
    ret (status res && (0 <? List.length (backData res))%nat).

Definition readUID (fuel : nat) : M string :=
  initialized <- gets _initialized ;;
  if negb initialized then ret ""%string
  else
    writeRegister BitFramingReg 0x07 ;;;
    let req := [PICC_REQIDL] in
    res <- communicateWithPICC fuel PCD_TRANSCEIVE req 200 ;;
    if negb (status res) || (List.length (backData res) =? 0)%nat
    then ret ""%string
    else
      writeRegister BitFramingReg 0x00 ;;;
      let anticoll := [PICC_ANTICOLL; 0x20] in
      res <- communicateWithPICC fuel PCD_TRANSCEIVE anticoll 200 ;;
      if negb (status res) || (List.length (backData res) <? 5)%nat
      then ret ""%string
      else
        (* uid.push(res.backData[i]) for i = 0..4 *)
        let uid := map (fun i => nth i (backData res) 0) (seq 0 5) in
        (* bcc ^= uid[i] for i = 0..3 *)
        let bcc := fold_left (fun b i => Z.lxor b (nth i uid 0)) (seq 0 4) 0 in
        (* the body of this conditional is empty in the source:
           "BCC mismatch; but still return first 4 bytes" *)
        (if negb (bcc =? nth 4 uid 0) then ret tt else ret tt) ;;;
        let uid4 := firstn 4 uid in
        ret (Hex.toHexString uid4).

Definition haltTag (fuel : nat) : M unit :=
  initialized <- gets _initialized ;;
  if negb initialized then ret tt
  else
    let buf := [PICC_HALT; 0x00] in
    crc <- calculateCRC buf ;;
    let buf := buf ++ [nth 0 crc 0] in
    let buf := buf ++ [nth 1 crc 0] in
    communicateWithPICC fuel PCD_TRANSCEIVE buf 200 ;;;
    ret tt.

Definition readReg (addr : Z) : M Z :=
  readRegister addr.

End Driver.

Arguments St W : clear implicits.
Arguments M W A : clear implicits.

(** The register writes in a trace, oldest first: the pairs (framed address
    byte, value) of two bytes sent one after the other.  An address byte
    followed by a received byte is a register read and contributes nothing. *)
Fixpoint registerWrites (es : list event) : list (Z * Z) :=
  match es with
  | [] => []
  | SpiWrite a :: es' =>
      match es' with
      | SpiWrite v :: es'' => (a, v) :: registerWrites es''
      | _ => registerWrites es'
      end
  | _ :: es' => registerWrites es'
  end.

(** The bytes received in a trace, oldest first. *)
Fixpoint spiReads (es : list event) : list Z :=
  match es with
  | [] => []
  | SpiRead v :: es' => v :: spiReads es'
  | _ :: es' => spiReads es'
  end.

(** The clock readings in a trace, oldest first. *)
Fixpoint clockReads (es : list event) : list Z :=
  match es with
  | [] => []
  | RunningTime t :: es' => t :: clockReads es'
  | _ :: es' => clockReads es'
  end.

(** ** Two transports to run the driver against *)

(** A transport that answers [pins.spiRead] from a script, oldest answer
    first, and 0 once the script is over.  Its clock moves on by [tick]
    milliseconds with every byte it is asked for. *)
Module Scripted.

Record world : Type := mkWorld {
  script : list Z;
  now : Z;
  tick : Z
}.

Definition read (w : world) : Z * world :=
  match script w with
  | [] => (0, mkWorld [] (now w + tick w) (tick w))
  | v :: rest => (v, mkWorld rest (now w + tick w) (tick w))
  end.

#[global] Instance platform : Platform world := {
  pins_digitalWritePin := fun _ _ w => w;
  pins_spiWrite := fun _ w => w;
  pins_spiRead := read;
  pins_spiPins := fun _ _ _ w => w;
  pins_spiFrequency := fun _ w => w;
  input_runningTime := fun w => (now w, w)
}.

(** A freshly loaded driver over a script, and one that went through
    [init] before. *)
Definition fresh (answers : list Z) (tick : Z) : St world :=
  initialSt (mkWorld answers 0 tick).

Definition ready (answers : list Z) (tick : Z) : St world :=
  mkSt (mkWorld answers 0 tick) P8 P12 P13 P15 P14 true.

(** The answers that carry one TRANSCEIVE exchange to success with
    response [resp]: the three read-modify-writes of the setup read 0, the
    first poll shows the wait flags, the bit-framing and error registers
    read 0, the interrupt register shows no timer bit, the FIFO level is
    the length of [resp], the FIFO gives [resp], the control register
    reads 0. *)
Definition exchange (resp : list Z) : list Z :=
  [0; 0; 0; 0x30; 0; 0; 0x30; Z.of_nat (List.length resp)] ++ resp ++ [0].

End Scripted.

(** A passive register file behind the SPI framing of the chip: the first
    byte after chip-select goes low is the address byte, a second byte sent
    is stored in the addressed register, a byte asked for is the register's
    content.  Registers keep what was written.  The clock moves on by one
    millisecond every time it is read. *)
Module RegFile.

Record world : Type := mkWorld {
  regs : Z -> Z;
  cs : DigitalPin;
  addrByte : option Z;
  clock : Z
}.

Definition pinEq (p q : DigitalPin) : bool :=
  match p, q with
  | P0, P0 | P1, P1 | P2, P2 | P3, P3 | P4, P4 | P5, P5 | P6, P6
  | P7, P7 | P8, P8 | P9, P9 | P10, P10 | P11, P11 | P12, P12
  | P13, P13 | P14, P14 | P15, P15 | P16, P16 | P19, P19 | P20, P20 => true
  | _, _ => false
  end.

Definition regOf (a : Z) : Z := Z.land (Z.shiftr a 1) 0x3F.

Definition store (r v : Z) (f : Z -> Z) : Z -> Z :=
  fun x => if x =? r then v else f x.

Definition select (p : DigitalPin) (level : Z) (w : world) : world :=
  if pinEq p (cs w) then mkWorld (regs w) (cs w) None (clock w) else w.

Definition send (b : Z) (w : world) : world :=
  match addrByte w with
  | None => mkWorld (regs w) (cs w) (Some b) (clock w)
  | Some a =>
      if Z.testbit a 7 then w
      else mkWorld (store (regOf a) b (regs w)) (cs w) (Some a) (clock w)
  end.

Definition receive (w : world) : Z * world :=
  match addrByte w with
  | None => (0, w)
  | Some a => (regs w (regOf a), w)
  end.

#[global] Instance platform : Platform world := {
  pins_digitalWritePin := select;
  pins_spiWrite := send;
  pins_spiRead := receive;
  pins_spiPins := fun _ _ _ w => w;
  pins_spiFrequency := fun _ w => w;
  input_runningTime := fun w => (clock w, mkWorld (regs w) (cs w) (addrByte w) (clock w + 1))
}.

(** Registers given as (address, content) pairs, 0 elsewhere. *)
Definition regsOf (l : list (Z * Z)) : Z -> Z :=
  fold_right (fun p f => store (fst p) (snd p) f) (fun _ => 0) l.

Definition fresh (l : list (Z * Z)) : St world :=
  initialSt (mkWorld (regsOf l) P8 None 0).

Definition ready (l : list (Z * Z)) : St world :=
  mkSt (mkWorld (regsOf l) P8 None 0) P8 P12 P13 P15 P14 true.

End RegFile.

(** * Specification vocabulary *)

(** ** Bus traffic of the register access layer *)

(** The traffic of one [writeRegister] and of one [readRegister] that was
    answered [v], on chip-select pin [sda]. *)
Definition wrFrame (sda : DigitalPin) (addr val : Z) : list event :=
  [DigitalWrite sda 0; SpiWrite (Z.land (Z.shiftl addr 1) 0x7E);
   SpiWrite val; DigitalWrite sda 1].

Definition rdFrame (sda : DigitalPin) (addr v : Z) : list event :=
  [DigitalWrite sda 0;
   SpiWrite (Z.lor (Z.land (Z.shiftl addr 1) 0x7E) 0x80);
   SpiRead v; DigitalWrite sda 1].

(** Writes of successive values to one register, reads of one register
    answered by successive values. *)
Definition wrFrames (sda : DigitalPin) (addr : Z) (vals : list Z) : list event :=
  flat_map (wrFrame sda addr) vals.

Definition rdFrames (sda : DigitalPin) (addr : Z) (vals : list Z) : list event :=
  flat_map (rdFrame sda addr) vals.

(** The read-modify-write of [setBitMask] and of [clearBitMask] when the
    register read [tmp]. *)
Definition setBitFrames (sda : DigitalPin) (reg mask tmp : Z) : list event :=
  rdFrame sda reg tmp ++ wrFrame sda reg (bitOr tmp mask).

Definition clearBitFrames (sda : DigitalPin) (reg mask tmp : Z) : list event :=
  rdFrame sda reg tmp ++ wrFrame sda reg (bitAnd tmp (bitNot mask)).

(** ** Traffic of the CRC coprocessor invocation *)

(** Everything [calculateCRC] does before it starts polling, when the
    divider-interrupt register read [d]. *)
Definition crcSetup (sda : DigitalPin) (data : list Z) (d : Z) : list event :=
  wrFrame sda CommandReg PCD_IDLE ++
  setBitFrames sda DivIrqReg 0x04 d ++
  wrFrame sda FIFOLevelReg 0x80 ++
  wrFrames sda FIFODataReg data ++
  wrFrame sda CommandReg PCD_CALCCRC.

(** The polling of [calculateCRC] with a budget of [n] polls: either some
    poll, after fewer than [n] unsuccessful ones, saw the CRC-ready bit and
    the two result registers were read, or all [n] polls were unsuccessful. *)
Definition crcPolled (sda : DigitalPin) (n : nat) (es : list event) (r : list Z) : Prop :=
  (exists vs v l h,
      (List.length vs < n)%nat /\
      Forall (fun x => Z.land x 0x04 = 0) vs /\
      Z.land v 0x04 <> 0 /\
      es = rdFrames sda DivIrqReg (vs ++ [v]) ++
           rdFrame sda 0x22 l ++ rdFrame sda 0x21 h /\
      r = [l; h])
  \/
  (exists vs,
      List.length vs = n /\
      Forall (fun x => Z.land x 0x04 = 0) vs /\
      es = rdFrames sda DivIrqReg vs /\
      r = [0; 0]).

(** ** Traffic of the command engine *)

(** The traffic of the wait loop, from its first poll to the poll or clock
    reading on which it is left.  [start] is the clock reading taken before
    the loop. *)
Inductive waited (sda : DigitalPin) (waitIRq start timeoutMs : Z) : list event -> Prop :=
| waited_irq n :
    Z.land n waitIRq <> 0 ->
    waited sda waitIRq start timeoutMs (rdFrame sda CommIrqReg n)
| waited_timer n :
    Z.land n waitIRq = 0 -> Z.land n 0x01 <> 0 ->
    waited sda waitIRq start timeoutMs (rdFrame sda CommIrqReg n)
| waited_timeout n now :
    Z.land n waitIRq = 0 -> Z.land n 0x01 = 0 ->
    now - start > timeoutMs ->
    waited sda waitIRq start timeoutMs
           (rdFrame sda CommIrqReg n ++ [RunningTime now])
| waited_again n now es :
    Z.land n waitIRq = 0 -> Z.land n 0x01 = 0 ->
    now - start <= timeoutMs ->
    waited sda waitIRq start timeoutMs es ->
    waited sda waitIRq start timeoutMs
           (rdFrame sda CommIrqReg n ++ RunningTime now :: es).

(** Steps 1 to 4 of [communicateWithPICC] (lines 148-160), when the three
    read-modify-writes read [c], [f] and [b]. *)
Definition commSetup (sda : DigitalPin) (command : Z) (sendData : list Z)
    (c f b : Z) : list event :=
  wrFrame sda CommIEnReg (Z.lor (fst (irqMasks command)) 0x80) ++
  clearBitFrames sda CommIrqReg 0x80 c ++
  setBitFrames sda FIFOLevelReg 0x80 f ++
  wrFrame sda CommandReg PCD_IDLE ++
  wrFrames sda FIFODataReg sendData ++
  wrFrame sda CommandReg command ++
  (if command =? PCD_TRANSCEIVE then setBitFrames sda BitFramingReg 0x80 b else []).

(** What follows the validation reads (lines 175-187), when the error
    register read [error] and the communication-interrupt register [irq]:
    the result [r] and the remaining traffic [post]. *)
Definition commOutcome (sda : DigitalPin) (command error irq : Z)
    (r : CommResult) (post : list event) : Prop :=
  if truthy (Z.land irq 0x01) || truthy (Z.land error 0x1B)
  then r = mkCommResult false [] 0 /\ post = []
  else if command =? PCD_TRANSCEIVE
       then exists fifoLevel bytes ctl,
              List.length bytes = Z.to_nat fifoLevel /\
              post = rdFrame sda FIFOLevelReg fifoLevel ++
                     rdFrames sda FIFODataReg bytes ++
                     rdFrame sda ControlReg ctl /\
              r = mkCommResult true bytes (Z.land ctl 0x07)
       else r = mkCommResult true [] 0 /\ post = [].

(** The whole traffic of one call of [communicateWithPICC] that returned [r]. *)
Definition commTrace (sda : DigitalPin) (command : Z) (sendData : list Z)
    (timeoutMs : Z) (r : CommResult) (es : list event) : Prop :=
  exists c f b start polls bf error irq post,
    es = commSetup sda command sendData c f b ++
         RunningTime start :: polls ++
         clearBitFrames sda BitFramingReg 0x80 bf ++
         rdFrame sda ErrorReg error ++
         rdFrame sda CommIrqReg irq ++
         post /\
    waited sda (snd (irqMasks command)) start timeoutMs polls /\
    commOutcome sda command error irq r post.

(** A call whose traffic never shows the timeout elapsed: no clock reading
    is more than [timeoutMs] past the first one. *)
Definition returnsBeforeTimeout (timeoutMs : Z) (es : list event) : Prop :=
  match clockReads es with
  | [] => True
  | start :: later => Forall (fun now => now - start <= timeoutMs) later
  end.

(** ** Register writes of [init] *)

(** The seven register writes [init] always makes (lines 205-211), as
    (framed address byte, value). *)
Definition initWrites : list (Z * Z) :=
  [(0x02, 0x0F); (0x54, 0x8D); (0x56, 0x3E); (0x5A, 30); (0x58, 0);
   (0x2A, 0x40); (0x22, 0x3D)].

(** The write [antennaOn] makes when the transmit-control register read [v]. *)
Definition antennaWrite (v : Z) : list (Z * Z) :=
  if negb (Z.land v 0x03 =? 0x03) then [(0x28, bitOr v 0x03)] else [].

(** The whole traffic of [init] on pins [sda] and [rst], with the SPI pins
    as they were, when the transmit-control register read [v]. *)
Definition initTrace (sda rst miso mosi sck : DigitalPin) (v : Z) : list event :=
  [DigitalWrite sda 1; DigitalWrite rst 1;
   SpiPins miso mosi sck; SpiFrequency 1000000] ++
  wrFrame sda CommandReg PCD_RESETPHASE ++
  wrFrame sda TModeReg 0x8D ++
  wrFrame sda TPrescalerReg 0x3E ++
  wrFrame sda TReloadRegL 30 ++
  wrFrame sda TReloadRegH 0 ++
  wrFrame sda TxAutoReg 0x40 ++
  wrFrame sda ModeReg 0x3D ++
  rdFrame sda TxControlReg v ++
  (if negb (Z.land v 0x03 =? 0x03)
   then wrFrame sda TxControlReg (bitOr v 0x03)
   else []).

(** ** Reading an identifier text back *)

(** The value of an upper-case hexadecimal digit. *)
Definition hexValue (c : ascii) : Z :=
  let n := Z.of_nat (nat_of_ascii c) in
  if (48 <=? n) && (n <=? 57) then n - 48
  else if (65 <=? n) && (n <=? 70) then n - 55
  else 0.

(** The bytes of a text made of two-digit groups with one separator
    character between groups. *)
Fixpoint parseHex (s : string) : list Z :=
  match s with
  | String a (String b rest) =>
      (16 * hexValue a + hexValue b) ::
      match rest with
      | String _ r => parseHex r
      | EmptyString => []
      end
  | _ => []
  end.

(** ** Bus discipline and register writes *)

(** Traffic that keeps the bus discipline on chip-select pin [sda]: a
    sequence of whole register accesses, each inside its own chip-select
    bracket, with clock readings in between.  Nothing else happens, no pin
    but [sda] is driven, and chip-select is high again at the end. *)
Inductive wellFramed (sda : DigitalPin) : list event -> Prop :=
| framed_nil : wellFramed sda []
| framed_write addr v es :
    wellFramed sda es -> wellFramed sda (wrFrame sda addr v ++ es)
| framed_read addr v es :
    wellFramed sda es -> wellFramed sda (rdFrame sda addr v ++ es)
| framed_clock t es :
    wellFramed sda es -> wellFramed sda (RunningTime t :: es).

(** The register writes of one call of [communicateWithPICC], as (framed
    address byte, value), when the read-modify-writes read [c], [f], [b]
    (start-send, TRANSCEIVE only) and [bf]. *)
Definition commWrites (command : Z) (sendData : list Z) (c f b bf : Z)
    : list (Z * Z) :=
  [(0x04, Z.lor (fst (irqMasks command)) 0x80);
   (0x08, bitAnd c (bitNot 0x80));
   (0x14, bitOr f 0x80);
   (0x02, PCD_IDLE)] ++
  map (fun x => (0x12, x)) sendData ++
  [(0x02, command)] ++
  (if command =? PCD_TRANSCEIVE then [(0x1A, bitOr b 0x80)] else []) ++
  [(0x1A, bitAnd bf (bitNot 0x80))].

(** The register writes of one call of [calculateCRC] when the
    divider-interrupt register read [d]. *)
Definition crcWrites (data : list Z) (d : Z) : list (Z * Z) :=
  [(0x02, PCD_IDLE); (0x0A, bitOr d 0x04); (0x14, 0x80)] ++
  map (fun x => (0x12, x)) data ++
  [(0x02, PCD_CALCCRC)].

(** ** Correctness statements over the monad *)

Section Vocabulary.

Context {W : Type} `{Platform W}.

(** Total correctness: the computation finishes from [s], touches nothing
    but the world, and its answer and trace satisfy [Q]. *)
Definition yields {A : Type} (m : M W A) (s : St W)
    (Q : A -> list event -> Prop) : Prop :=
  exists a w es, m s = Some (a, setWorld w s, es) /\ Q a es.

(** Partial correctness: whenever the computation finishes from [s], it
    has touched nothing but the world and [Q] holds. *)
Definition ensures {A : Type} (m : M W A) (s : St W)
    (Q : A -> list event -> Prop) : Prop :=
  forall a s' es, m s = Some (a, s', es) ->
    (exists w, s' = setWorld w s) /\ Q a es.

(** The trace [es] is what the platform does and answers when the calls
    listed in it are made one after the other from world [w]: every byte
    and every clock reading recorded is the one the platform gives at that
    point, and [w'] is the world the calls leave. *)
Inductive played : W -> list event -> W -> Prop :=
| played_nil w : played w [] w
| played_pin p l w es w' :
    played (pins_digitalWritePin p l w) es w' ->
    played w (DigitalWrite p l :: es) w'
| played_write b w es w' :
    played (pins_spiWrite b w) es w' ->
    played w (SpiWrite b :: es) w'
| played_read w es w' :
    played (snd (pins_spiRead w)) es w' ->
    played w (SpiRead (fst (pins_spiRead w)) :: es) w'
| played_pins miso mosi sck w es w' :
    played (pins_spiPins miso mosi sck w) es w' ->
    played w (SpiPins miso mosi sck :: es) w'
| played_frequency hz w es w' :
    played (pins_spiFrequency hz w) es w' ->
    played w (SpiFrequency hz :: es) w'
| played_time w es w' :
    played (snd (input_runningTime w)) es w' ->
    played w (RunningTime (fst (input_runningTime w)) :: es) w'.

(** A computation whose trace is always played by the platform from the
    world it starts in to the world it ends in. *)
Definition plays {A : Type} (m : M W A) : Prop :=
  forall s a s' es, m s = Some (a, s', es) -> played (world s) es (world s').

(** What the platform answers to a read of register [addr] made in world
    [w] on chip-select pin [sda], and the world that read leaves. *)
Definition rdAnswer (sda : DigitalPin) (addr : Z) (w : W) : Z :=
  fst (pins_spiRead
         (pins_spiWrite (Z.lor (Z.land (Z.shiftl addr 1) 0x7E) 0x80)
            (pins_digitalWritePin sda 0 w))).

Definition rdWorld (sda : DigitalPin) (addr : Z) (w : W) : W :=
  pins_digitalWritePin sda 1
    (snd (pins_spiRead
            (pins_spiWrite (Z.lor (Z.land (Z.shiftl addr 1) 0x7E) 0x80)
               (pins_digitalWritePin sda 0 w)))).

(** A public operation that short-circuits: it answers at once, leaves
    the state as it was and causes no platform call. *)
Definition shortCircuits {A : Type} (m : M W A) (s : St W) (a : A) : Prop :=
  m s = Some (a, s, []).

End Vocabulary.

(** * Verification *)

(** ** The 32-bit operators *)

Lemma toInt32_mod z : toInt32 z mod 2 ^ 32 = z mod 2 ^ 32.
Proof.
  unfold toInt32. change 4294967296 with (2 ^ 32).
  rewrite Zminus_mod_idemp_l. f_equal. lia.
Qed.

Lemma toInt32_range z : - 2 ^ 31 <= toInt32 z < 2 ^ 31.
Proof.
  unfold toInt32.
  pose proof (Z.mod_pos_bound (z + 2147483648) 4294967296 eq_refl). lia.
Qed.

Lemma toInt32_bits z i : 0 <= i < 32 -> Z.testbit (toInt32 z) i = Z.testbit z i.
Proof.
  intros Hi.
  rewrite <- (Z.mod_pow2_bits_low (toInt32 z) 32 i) by lia.
  rewrite <- (Z.mod_pow2_bits_low z 32 i) by lia.
  rewrite toInt32_mod. reflexivity.
Qed.

Lemma bitOr_bits a b i :
  0 <= i < 32 -> Z.testbit (bitOr a b) i = Z.testbit a i || Z.testbit b i.
Proof.
  intros Hi. unfold bitOr.
  rewrite toInt32_bits, Z.lor_spec, !toInt32_bits by lia. reflexivity.
Qed.

Lemma bitAnd_bits a b i :
  0 <= i < 32 -> Z.testbit (bitAnd a b) i = Z.testbit a i && Z.testbit b i.
Proof.
  intros Hi. unfold bitAnd.
  rewrite toInt32_bits, Z.land_spec, !toInt32_bits by lia. reflexivity.
Qed.

Lemma bitNot_bits a i :
  0 <= i < 32 -> Z.testbit (bitNot a) i = negb (Z.testbit a i).
Proof.
  intros Hi. unfold bitNot.
  rewrite toInt32_bits, Z.lnot_spec, toInt32_bits by lia. reflexivity.
Qed.

Lemma toInt32_id z : - 2 ^ 31 <= z < 2 ^ 31 -> toInt32 z = z.
Proof.
  intros Hz. unfold toInt32. rewrite Z.mod_small by lia. lia.
Qed.

(** Against a mask that fits in 31 bits, the 32-bit [&] is the plain
    conjunction, whatever the other operand. *)
Lemma bitAnd_mask v m : 0 <= m < 2 ^ 31 -> bitAnd v m = Z.land v m.
Proof.
  intros Hm. unfold bitAnd. rewrite (toInt32_id m) by lia.
  assert (Hhigh : forall x i, 31 <= i -> Z.testbit (Z.land x m) i = false).
  { intros x i Hi. rewrite Z.land_spec.
    rewrite <- (Z.mod_small m (2 ^ 31)) by lia.
    rewrite Z.mod_pow2_bits_high by lia. apply andb_false_r. }
  assert (Hb : 0 <= Z.land (toInt32 v) m < 2 ^ 31).
  { assert (H0 : 0 <= Z.land (toInt32 v) m) by (apply Z.land_nonneg; right; lia).
    split; [exact H0|].
    destruct (Z.eq_dec (Z.land (toInt32 v) m) 0) as [->|Hnz]; [lia|].
    apply Z.log2_lt_pow2; [lia|].
    destruct (Z.lt_ge_cases (Z.log2 (Z.land (toInt32 v) m)) 31) as [Hl|Hl]; [exact Hl|].
    pose proof (Z.bit_log2 (Z.land (toInt32 v) m) ltac:(lia)) as Hbit.
    rewrite Hhigh in Hbit by lia. discriminate. }
  rewrite toInt32_id by lia.
  apply Z.bits_inj'. intros i Hi. rewrite !Z.land_spec.
  destruct (Z.ltb_spec i 32) as [Hlt|Hge].
  - rewrite toInt32_bits by lia. reflexivity.
  - rewrite <- (Z.mod_small m (2 ^ 31)) by lia.
    rewrite Z.mod_pow2_bits_high by lia. rewrite !andb_false_r. reflexivity.
Qed.

(** On two numbers that fit in 31 bits the 32-bit [|] is the plain
    disjunction. *)
Lemma bitOr_small a b :
  0 <= a < 2 ^ 31 -> 0 <= b < 2 ^ 31 -> bitOr a b = Z.lor a b.
Proof.
  intros Ha Hb. unfold bitOr. rewrite (toInt32_id a), (toInt32_id b) by lia.
  apply toInt32_id.
  assert (H0 : 0 <= Z.lor a b) by (apply Z.lor_nonneg; lia).
  split; [lia|].
  destruct (Z.eq_dec (Z.lor a b) 0) as [->|Hnz]; [lia|].
  apply Z.log2_lt_pow2; [lia|].
  rewrite Z.log2_lor by lia.
  destruct (Z.eq_dec a 0) as [->|Haz]; destruct (Z.eq_dec b 0) as [->|Hbz];
    cbn [Z.log2]; try lia.
  - apply Z.max_lub_lt; [lia|]. apply Z.log2_lt_pow2; lia.
  - apply Z.max_lub_lt; [|lia]. apply Z.log2_lt_pow2; lia.
  - apply Z.max_lub_lt; apply Z.log2_lt_pow2; lia.
Qed.

(** The framing of a register address, [(addr << 1) & 0x7E], computed with
    the 32-bit shift and conjunction of the source, is the number the
    operations of [Z] give, for every address. *)
Lemma framing_32bit addr :
  bitAnd (toInt32 (Z.shiftl (toInt32 addr) 1)) 0x7E = Z.land (Z.shiftl addr 1) 0x7E /\
  bitOr (Z.land (Z.shiftl addr 1) 0x7E) 0x80 =
  Z.lor (Z.land (Z.shiftl addr 1) 0x7E) 0x80.
Proof.
  split.
  - rewrite bitAnd_mask by lia.
    apply Z.bits_inj'. intros i Hi. rewrite !Z.land_spec.
    destruct (Z.ltb_spec i 32) as [Hlt|Hge].
    + rewrite toInt32_bits by lia.
      destruct (Z.eq_dec i 0) as [->|Hnz].
      * rewrite !Z.shiftl_spec_low by lia. reflexivity.
      * rewrite !Z.shiftl_spec by lia. rewrite toInt32_bits by lia. reflexivity.
    + rewrite (Z.bits_above_log2 0x7E i) by (cbn; lia).
      rewrite !andb_false_r. reflexivity.
  - apply bitOr_small; [|lia].
    assert (H0 : 0 <= Z.land (Z.shiftl addr 1) 0x7E)
      by (apply Z.land_nonneg; right; lia).
    split; [exact H0|].
    destruct (Z.eq_dec (Z.land (Z.shiftl addr 1) 0x7E) 0) as [->|Hnz]; [lia|].
    apply Z.log2_lt_pow2; [lia|].
    destruct (Z.lt_ge_cases (Z.log2 (Z.land (Z.shiftl addr 1) 0x7E)) 31)
      as [Hl|Hl]; [exact Hl|].
    pose proof (Z.bit_log2 (Z.land (Z.shiftl addr 1) 0x7E) ltac:(lia)) as Hbit.
    rewrite Z.land_spec in Hbit.
    rewrite (Z.bits_above_log2 0x7E) in Hbit;
      [|lia|change (Z.log2 126) with 6; lia].
    rewrite andb_false_r in Hbit. discriminate.
Qed.

Lemma bitOr_low_bits v : Z.land (bitOr v 3) 3 = 3.
Proof.
  apply Z.bits_inj'. intros i Hi. rewrite Z.land_spec.
  destruct (Z.ltb_spec i 32) as [Hlt|Hge].
  - rewrite bitOr_bits by lia.
    destruct (Z.testbit v i), (Z.testbit 3 i); reflexivity.
  - rewrite (Z.bits_above_log2 3 i) by (cbn; lia). apply andb_false_r.
Qed.

(** ** The identifier text *)

Lemma string_app_assoc (a b c : string) :
  ((a ++ b) ++ c)%string = (a ++ (b ++ c))%string.
Proof. induction a as [|x a IH]; cbn; [|rewrite IH]; reflexivity. Qed.

Lemma toUpperCase_app (a b : string) :
  Hex.toUpperCase (a ++ b) = (Hex.toUpperCase a ++ Hex.toUpperCase b)%string.
Proof. induction a as [|x a IH]; cbn; [|rewrite IH]; reflexivity. Qed.

Lemma toHexLoop_acc (arr : list Z) (s : string) :
  Hex.toHexLoop arr s = (s ++ Hex.toHexLoop arr "")%string.
Proof.
  revert s. induction arr as [|x rest IH]; intros s; cbn [Hex.toHexLoop].
  - induction s as [|c s IHs]; cbn; [|rewrite <- IHs]; reflexivity.
  - rewrite IH. symmetry. rewrite IH. symmetry.
    destruct rest; cbn [append]; rewrite ?string_app_assoc; reflexivity.
Qed.

(** The two characters [toHexString] writes for a byte read back as that
    byte; checked on all 256 bytes. *)
Lemma byte_text t :
  0 <= t < 256 ->
  exists a b,
    Hex.toUpperCase
      (let h := Hex.toString16 t in
       if Nat.eqb (String.length h) 1 then ("0" ++ h)%string else h) =
    String a (String b EmptyString) /\
    16 * hexValue a + hexValue b = t.
Proof.
  intros Ht.
  pose (check := fun t =>
    match Hex.toUpperCase
            (let h := Hex.toString16 t in
             if Nat.eqb (String.length h) 1 then ("0" ++ h)%string else h) with
    | String a (String b EmptyString) => 16 * hexValue a + hexValue b =? t
    | _ => false
    end).
  assert (Hall : forallb check (map Z.of_nat (seq 0 256)) = true)
    by (vm_compute; reflexivity).
  rewrite forallb_forall in Hall.
  assert (Hin : In t (map Z.of_nat (seq 0 256))).
  { apply in_map_iff. exists (Z.to_nat t). split; [lia|]. apply in_seq. lia. }
  specialize (Hall t Hin). unfold check in Hall.
  destruct (Hex.toUpperCase _) as [|a [|b [|c r]]]; try discriminate Hall.
  exists a, b. split; [reflexivity | apply Z.eqb_eq, Hall].
Qed.

(** The text [toHexString] makes determines the bytes it was made from:
    read back, it gives every element reduced to its low 8 bits, which for
    bytes is the element itself. *)
Theorem parseHex_toHexString (arr : list Z) :
  parseHex (Hex.toHexString arr) = map (fun x => Z.land x 0xFF) arr.
Proof.
  unfold Hex.toHexString.
  induction arr as [|x rest IH]; [reflexivity|].
  cbn [Hex.toHexLoop map]. rewrite toHexLoop_acc, toUpperCase_app.
  assert (Hx : 0 <= Z.land x 0xFF < 256).
  { change 0xFF with (Z.ones 8). rewrite Z.land_ones by lia.
    apply Z.mod_pos_bound. reflexivity. }
  destruct (byte_text _ Hx) as (a & b & Hab & Hv).
  destruct rest as [|y rest'].
  - cbn [append] in *. rewrite Hab.
    cbn [append Hex.toHexLoop Hex.toUpperCase parseHex map].
    rewrite Hv. reflexivity.
  - rewrite toUpperCase_app. cbn [append] in Hab |- *. rewrite Hab.
    cbn [append Hex.toUpperCase parseHex]. rewrite IH, Hv. reflexivity.
Qed.

Corollary toHexString_bytes_injective (l l' : list Z) :
  Forall (fun x => 0 <= x <= 255) l ->
  Forall (fun x => 0 <= x <= 255) l' ->
  Hex.toHexString l = Hex.toHexString l' -> l = l'.
Proof.
  assert (Hid : forall k, Forall (fun x => 0 <= x <= 255) k ->
                          map (fun x => Z.land x 0xFF) k = k).
  { induction 1 as [|x k Hx _ IH]; [reflexivity|].
    cbn [map]. rewrite IH. f_equal.
    change 0xFF with (Z.ones 8). rewrite Z.land_ones by lia.
    apply Z.mod_small. lia. }
  intros Hl Hl' E.
  rewrite <- (Hid l Hl), <- (Hid l' Hl'), <- !parseHex_toHexString, E.
  reflexivity.
Qed.

(** ** Further properties of [toHexString] *)

Lemma string_length_app (a b : string) :
  String.length (a ++ b) = (String.length a + String.length b)%nat.
Proof. induction a as [|x a IH]; cbn; [|rewrite IH]; reflexivity. Qed.

Lemma toUpperCase_length (a : string) :
  String.length (Hex.toUpperCase a) = String.length a.
Proof. induction a as [|x a IH]; cbn; [|rewrite IH]; reflexivity. Qed.

Lemma land_byte_range x : 0 <= Z.land x 0xFF < 256.
Proof.
  change 0xFF with (Z.ones 8). rewrite Z.land_ones by lia.
  apply Z.mod_pos_bound. reflexivity.
Qed.

Lemma land_byte_id x : 0 <= x <= 255 -> Z.land x 0xFF = x.
Proof.
  intros Hx. change 0xFF with (Z.ones 8). rewrite Z.land_ones by lia.
  apply Z.mod_small. lia.
Qed.

(** X1.  For an array of bytes (every element between 0 and 255) the text
    made by [toHexString] reads back to the very same array: two upper-case
    hexadecimal digits per byte, in order, one separator between bytes. *)
Theorem toHexString_round_trip (arr : list Z) :
  Forall (fun x => 0 <= x <= 255) arr ->
  parseHex (Hex.toHexString arr) = arr.
Proof.
  intros Hb. rewrite parseHex_toHexString.
  induction Hb as [|x k Hx _ IH]; [reflexivity|].
  cbn [map]. rewrite IH, (land_byte_id x Hx). reflexivity.
Qed.

Lemma toHexString_length_eq (arr : list Z) :
  String.length (Hex.toHexString arr) = (3 * List.length arr - 1)%nat.
Proof.
  unfold Hex.toHexString. rewrite toUpperCase_length.
  induction arr as [|x rest IH]; [reflexivity|].
  cbn [Hex.toHexLoop List.length]. rewrite toHexLoop_acc, string_length_app, IH.
  destruct (byte_text _ (land_byte_range x)) as (a & b & Hab & _).
  apply (f_equal String.length) in Hab.
  rewrite toUpperCase_length in Hab. cbv zeta in Hab. cbn [String.length] in Hab.
  destruct rest as [|y rest'];
    cbn [append List.length]; rewrite ?string_length_app; cbn [append] in Hab |- *;
    rewrite Hab; cbn [String.length]; lia.
Qed.

(** X2.  The text of [n] elements is [3 * n - 1] characters long (two
    digits per element, a separator after each but the last), and the text
    of the empty array is empty. *)
Theorem toHexString_length (arr : list Z) :
  String.length (Hex.toHexString arr) = (3 * List.length arr - 1)%nat /\
  (arr = [] -> Hex.toHexString arr = EmptyString).
Proof.
  split; [apply toHexString_length_eq|]. intros ->. reflexivity.
Qed.

(** X3.  Only the low 8 bits of an element reach the text: an element
    outside 0..255 (negative, or 256 and above) is written as its value
    modulo 256, never rejected and never widened to more digits. *)
Theorem toHexString_low_bits (arr : list Z) :
  Hex.toHexString (map (fun x => x mod 256) arr) = Hex.toHexString arr.
Proof.
  unfold Hex.toHexString. f_equal. generalize EmptyString.
  induction arr as [|x rest IH]; intros s; [reflexivity|].
  cbn [map Hex.toHexLoop].
  assert (Hx : Z.land (x mod 256) 0xFF = Z.land x 0xFF).
  { change 0xFF with (Z.ones 8). rewrite !Z.land_ones by lia.
    change (2 ^ 8) with 256. apply Z.mod_mod. lia. }
  rewrite Hx. destruct rest as [|y rest']; [reflexivity|].
  rewrite IH. reflexivity.
Qed.

(** ** The program logic and the register access layer *)

Section Logic.

Context {W : Type} `{Platform W}.

Implicit Types s : St W.

Lemma setWorld_world s : setWorld (world s) s = s.
Proof. destruct s; reflexivity. Qed.

Lemma bind_inv {A B : Type} (m : M W A) (k : A -> M W B) s b s' es :
  bind m k s = Some (b, s', es) ->
  exists a s1 e1 e2,
    m s = Some (a, s1, e1) /\ k a s1 = Some (b, s', e2) /\ es = e1 ++ e2.
Proof.
  unfold bind. destruct (m s) as [[[a s1] e1]|]; [|discriminate].
  destruct (k a s1) as [[[b' s2] e2]|] eqn:E2; [|discriminate].
  intros E; inversion E; subst.
  exists a, s1, e1, e2; repeat split; assumption.
Qed.

Lemma bind_run {A B : Type} (m : M W A) (k : A -> M W B) s a s1 e1 b s2 e2 :
  m s = Some (a, s1, e1) -> k a s1 = Some (b, s2, e2) ->
  bind m k s = Some (b, s2, e1 ++ e2).
Proof. unfold bind; intros -> ->; reflexivity. Qed.

Lemma yields_ensures {A : Type} (m : M W A) s Q :
  yields m s Q -> ensures m s Q.
Proof.
  intros (a & w & es & E & HQ) a' s' es' E'.
  rewrite E in E'; inversion E'; subst; eauto.
Qed.

Lemma yields_weaken {A : Type} (m : M W A) s (Q Q' : A -> list event -> Prop) :
  yields m s Q -> (forall a es, Q a es -> Q' a es) -> yields m s Q'.
Proof. intros (a & w & es & E & HQ) HI; exists a, w, es; auto. Qed.

Lemma ensures_weaken {A : Type} (m : M W A) s (Q Q' : A -> list event -> Prop) :
  ensures m s Q -> (forall a es, Q a es -> Q' a es) -> ensures m s Q'.
Proof. intros HE HI a s' es E; destruct (HE _ _ _ E); auto. Qed.

Lemma yields_ret {A : Type} (a : A) s (Q : A -> list event -> Prop) :
  Q a [] -> yields (ret a) s Q.
Proof.
  intros HQ; exists a, (world s), []; rewrite setWorld_world; auto.
Qed.

Lemma yields_gets {A : Type} (f : St W -> A) s (Q : A -> list event -> Prop) :
  Q (f s) [] -> yields (gets f) s Q.
Proof.
  intros HQ; exists (f s), (world s), []; rewrite setWorld_world; auto.
Qed.

Lemma yields_bind {A B : Type} (m : M W A) (k : A -> M W B) s
    (Q1 : A -> list event -> Prop) (Q : B -> list event -> Prop) :
  yields m s Q1 ->
  (forall a e1 w, Q1 a e1 ->
     yields (k a) (setWorld w s) (fun b e2 => Q b (e1 ++ e2))) ->
  yields (bind m k) s Q.
Proof.
  intros (a & w & e1 & E1 & H1) Hk.
  destruct (Hk a e1 w H1) as (b & w' & e2 & E2 & H2).
  exists b, w', (e1 ++ e2); split; [|exact H2].
  exact (bind_run _ _ _ _ _ _ _ _ _ E1 E2).
Qed.

Lemma ensures_bind {A B : Type} (m : M W A) (k : A -> M W B) s
    (Q1 : A -> list event -> Prop) (Q : B -> list event -> Prop) :
  ensures m s Q1 ->
  (forall a e1 w, Q1 a e1 ->
     ensures (k a) (setWorld w s) (fun b e2 => Q b (e1 ++ e2))) ->
  ensures (bind m k) s Q.
Proof.
  intros Hm Hk b s' es E.
  apply bind_inv in E as (a & s1 & e1 & e2 & E1 & E2 & ->).
  destruct (Hm _ _ _ E1) as [[w ->] H1].
  destruct (Hk a e1 w H1 _ _ _ E2) as [[w' ->] H2].
  split; [exists w'; reflexivity | exact H2].
Qed.

(** Steps for goals that ask for a result outright. *)
Lemma bind_then {A B : Type} (m : M W A) (k : A -> M W B) s a s1 e1
    (Q : B -> St W -> list event -> Prop) :
  m s = Some (a, s1, e1) ->
  (exists b s2 e2, k a s1 = Some (b, s2, e2) /\ Q b s2 (e1 ++ e2)) ->
  exists b s2 es, bind m k s = Some (b, s2, es) /\ Q b s2 es.
Proof.
  intros E (b & s2 & e2 & E2 & HQ).
  exists b, s2, (e1 ++ e2). split; [exact (bind_run _ _ _ _ _ _ _ _ _ E E2) | exact HQ].
Qed.

Lemma yields_then {A B : Type} (m : M W A) (k : A -> M W B) s
    (Q1 : A -> list event -> Prop) (Q : B -> St W -> list event -> Prop) :
  yields m s Q1 ->
  (forall a e1 w, Q1 a e1 ->
     exists b s2 e2, k a (setWorld w s) = Some (b, s2, e2) /\ Q b s2 (e1 ++ e2)) ->
  exists b s2 es, bind m k s = Some (b, s2, es) /\ Q b s2 es.
Proof.
  intros (a & w & e1 & E & H1) Hk.
  exact (bind_then _ _ _ _ _ _ _ E (Hk a e1 w H1)).
Qed.

(** *** The register access layer *)

Lemma writeRegister_yields addr v s :
  yields (writeRegister addr v) s
         (fun _ es => es = wrFrame (_sdaPin s) addr v).
Proof. do 3 eexists; split; reflexivity. Qed.

Lemma readRegister_yields addr s :
  yields (readRegister addr) s
         (fun v es => es = rdFrame (_sdaPin s) addr v).
Proof.
  unfold yields, readRegister, bind, gets, digitalWritePin, spiWrite, spiRead, ret.
  cbn. destruct (pins_spiRead _) as [v w]. cbn.
  do 3 eexists; split; reflexivity.
Qed.

Lemma setWorld_setWorld w w' s : setWorld w' (setWorld w s) = setWorld w' s.
Proof. reflexivity. Qed.

Lemma sdaPin_setWorld w s : _sdaPin (setWorld w s) = _sdaPin s.
Proof. reflexivity. Qed.

Ltac tidy := rewrite ?setWorld_setWorld, ?sdaPin_setWorld in *.

(** One step through a [bind] whose first computation is total, in a
    total and in a partial correctness goal. *)
Tactic Notation "ystep" constr(lem) "as" simple_intropattern(x) simple_intropattern(Hq) :=
  eapply yields_bind; [apply lem | cbn beta; intros x ? ? Hq; tidy].

Tactic Notation "estep" constr(lem) "as" simple_intropattern(x) simple_intropattern(Hq) :=
  eapply ensures_bind;
  [apply yields_ensures, lem | cbn beta; intros x ? ? Hq; tidy].

Lemma setBitMask_yields reg mask s :
  yields (setBitMask reg mask) s
         (fun _ es => exists tmp, es = setBitFrames (_sdaPin s) reg mask tmp).
Proof.
  unfold setBitMask. ystep readRegister_yields as tmp ->.
  eapply yields_weaken; [apply writeRegister_yields|].
  intros _ es ->. exists tmp. reflexivity.
Qed.

Lemma clearBitMask_yields reg mask s :
  yields (clearBitMask reg mask) s
         (fun _ es => exists tmp, es = clearBitFrames (_sdaPin s) reg mask tmp).
Proof.
  unfold clearBitMask. ystep readRegister_yields as tmp ->.
  eapply yields_weaken; [apply writeRegister_yields|].
  intros _ es ->. exists tmp. reflexivity.
Qed.

Lemma writeFifo_yields data s :
  yields (writeFifo data) s
         (fun _ es => es = wrFrames (_sdaPin s) FIFODataReg data).
Proof.
  revert s. induction data as [|b rest IH]; intros s; cbn [writeFifo].
  - apply yields_ret. reflexivity.
  - ystep writeRegister_yields as _ ->.
    eapply yields_weaken; [apply IH|].
    intros _ es ->. reflexivity.
Qed.

Lemma readFifo_yields n acc s :
  yields (readFifo n acc) s
         (fun r es => exists bytes,
              List.length bytes = n /\ r = acc ++ bytes /\
              es = rdFrames (_sdaPin s) FIFODataReg bytes).
Proof.
  revert acc s. induction n as [|n IH]; intros acc s; cbn [readFifo].
  - apply yields_ret. exists []. rewrite app_nil_r. auto.
  - ystep readRegister_yields as b ->.
    eapply yields_weaken; [apply IH|].
    intros r es (bytes & Hl & -> & ->).
    exists (b :: bytes). cbn [List.length]. rewrite Hl, <- app_assoc.
    repeat split.
Qed.

Lemma antennaOn_yields s :
  yields antennaOn s
         (fun _ es => exists v,
              es = rdFrame (_sdaPin s) TxControlReg v ++
                   (if negb (Z.land v 0x03 =? 0x03)
                    then wrFrame (_sdaPin s) TxControlReg (bitOr v 0x03)
                    else [])).
Proof.
  unfold antennaOn. ystep readRegister_yields as v ->.
  rewrite bitAnd_mask by lia.
  destruct (negb (Z.land v 3 =? 3)) eqn:E.
  - eapply yields_weaken; [apply writeRegister_yields|].
    intros _ es ->. exists v. rewrite E. reflexivity.
  - apply yields_ret. exists v. rewrite E. reflexivity.
Qed.

(** *** The CRC coprocessor *)

Lemma crcPoll_yields n s :
  yields (crcPoll n) s (fun r es => crcPolled (_sdaPin s) n es r).
Proof.
  revert s. induction n as [|n IH]; intros s; cbn [crcPoll].
  - apply yields_ret. right. exists []. repeat split. constructor.
  - ystep readRegister_yields as a ->.
    destruct (truthy (Z.land a 4)) eqn:E.
    + ystep readRegister_yields as l ->.
      ystep readRegister_yields as h ->.
      apply yields_ret. left. exists [], a, l, h.
      unfold truthy in E. apply negb_true_iff, Z.eqb_neq in E.
      repeat split; [cbn; lia | constructor | exact E].
    + unfold truthy in E. apply negb_false_iff, Z.eqb_eq in E.
      eapply yields_weaken; [apply IH|].
      intros r es [(vs & v & l & h & Hl & Hvs & Hv & -> & ->)|(vs & Hl & Hvs & -> & ->)].
      * left. exists (a :: vs), v, l, h.
        repeat split; [cbn; lia | constructor; assumption | exact Hv].
      * right. exists (a :: vs).
        repeat split; [cbn; lia | constructor; assumption].
Qed.

Lemma calculateCRC_yields data s :
  yields (calculateCRC data) s
         (fun r es => exists d polls,
              es = crcSetup (_sdaPin s) data d ++ polls /\
              crcPolled (_sdaPin s) 255 polls r).
Proof.
  unfold calculateCRC.
  ystep writeRegister_yields as _ ->.
  ystep setBitMask_yields as _ [d ->].
  ystep writeRegister_yields as _ ->.
  ystep writeFifo_yields as _ ->.
  ystep writeRegister_yields as _ ->.
  eapply yields_weaken; [apply crcPoll_yields|].
  intros r es Hp. exists d, es. split; [|exact Hp].
  unfold crcSetup. cbn [_sdaPin setWorld]. rewrite <- !app_assoc. reflexivity.
Qed.

(** *** The command engine *)

Lemma runningTime_yields s :
  yields runningTime s (fun t es => es = [RunningTime t]).
Proof.
  unfold yields, runningTime. destruct (input_runningTime _) as [t w].
  do 3 eexists; split; reflexivity.
Qed.

Lemma truthy_true n : truthy n = true <-> n <> 0.
Proof. unfold truthy. rewrite negb_true_iff. apply Z.eqb_neq. Qed.

Lemma truthy_false n : truthy n = false <-> n = 0.
Proof. unfold truthy. rewrite negb_false_iff. apply Z.eqb_eq. Qed.

Lemma ensures_spin {A : Type} s (Q : A -> list event -> Prop) :
  ensures (@spin W A) s Q.
Proof. intros a s' es E; discriminate E. Qed.

Lemma waitLoop_ensures fuel waitIRq start timeoutMs s :
  ensures (waitLoop fuel waitIRq start timeoutMs) s
          (fun _ es => waited (_sdaPin s) waitIRq start timeoutMs es).
Proof.
  revert s. induction fuel as [|fuel IH]; intros s; cbn [waitLoop].
  - apply ensures_spin.
  - estep readRegister_yields as a ->.
    destruct (truthy (Z.land a waitIRq)) eqn:Ew.
    { apply yields_ensures, yields_ret. rewrite app_nil_r.
      apply waited_irq. apply truthy_true, Ew. }
    apply truthy_false in Ew.
    destruct (truthy (Z.land a 1)) eqn:Et.
    { apply yields_ensures, yields_ret. rewrite app_nil_r.
      apply waited_timer; [exact Ew | apply truthy_true, Et]. }
    apply truthy_false in Et.
    estep runningTime_yields as a0 ->.
    destruct (a0 - start >? timeoutMs) eqn:Eo.
    { apply yields_ensures, yields_ret. rewrite app_nil_r.
      apply (waited_timeout _ _ _ _ a a0); auto.
      apply Z.gtb_lt in Eo. lia. }
    eapply ensures_weaken; [apply IH|].
    intros ? es Hw.
    apply (waited_again _ _ _ _ a a0 es); auto.
    rewrite Z.gtb_ltb in Eo. apply Z.ltb_ge in Eo. lia.
Qed.

Lemma communicateWithPICC_ensures fuel command sendData timeoutMs s :
  ensures (communicateWithPICC fuel command sendData timeoutMs) s
          (fun r es => commTrace (_sdaPin s) command sendData timeoutMs r es).
Proof.
  unfold communicateWithPICC.
  estep writeRegister_yields as _ ->.
  estep clearBitMask_yields as _ [c ->].
  estep setBitMask_yields as _ [f ->].
  estep writeRegister_yields as _ ->.
  estep writeFifo_yields as _ ->.
  estep writeRegister_yields as _ ->.
  eapply ensures_bind with
    (Q1 := fun _ es => exists b,
               es = if command =? PCD_TRANSCEIVE
                    then setBitFrames (_sdaPin s) BitFramingReg 0x80 b else []).
  { apply yields_ensures. destruct (command =? PCD_TRANSCEIVE).
    - eapply yields_weaken; [apply setBitMask_yields|].
      intros ? ? [b ->]. exists b. reflexivity.
    - apply yields_ret. exists 0. reflexivity. }
  cbn beta. intros ? ? ? [b ->]. tidy.
  estep runningTime_yields as start ->.
  eapply ensures_bind; [apply waitLoop_ensures|].
  cbn beta. intros ? polls ? Hw. tidy.
  estep clearBitMask_yields as _ [bf ->].
  estep readRegister_yields as error ->.
  estep readRegister_yields as irq ->.
  destruct (truthy (Z.land irq 1) || truthy (Z.land error 27)) eqn:Efail.
  { apply yields_ensures, yields_ret.
    exists c, f, b, start, polls, bf, error, irq, [].
    split; [|split; [exact Hw|]].
    - unfold commSetup. rewrite <- !app_assoc. reflexivity.
    - unfold commOutcome. rewrite Efail. auto. }
  destruct (command =? PCD_TRANSCEIVE) eqn:Ecmd.
  - estep readRegister_yields as fifoLevel ->.
    estep readFifo_yields as backData (bytes & Hlen & -> & ->).
    estep readRegister_yields as ctl ->.
    apply yields_ensures, yields_ret.
    exists c, f, b, start, polls, bf, error, irq,
      (rdFrame (_sdaPin s) FIFOLevelReg fifoLevel ++
       rdFrames (_sdaPin s) FIFODataReg bytes ++
       rdFrame (_sdaPin s) ControlReg ctl).
    split; [|split; [exact Hw|]].
    + unfold commSetup. rewrite Ecmd, <- !app_assoc. reflexivity.
    + unfold commOutcome. rewrite Efail, Ecmd.
      exists fifoLevel, bytes, ctl. auto.
  - apply yields_ensures, yields_ret.
    exists c, f, b, start, polls, bf, error, irq, [].
    split; [|split; [exact Hw|]].
    + unfold commSetup. rewrite Ecmd, <- !app_assoc. reflexivity.
    + unfold commOutcome. rewrite Efail, Ecmd. auto.
Qed.

(** ** Traces are played by the platform *)

Lemma played_app w e1 wm e2 w' :
  played w e1 wm -> played wm e2 w' -> played w (e1 ++ e2) w'.
Proof.
  induction 1; intros H2; cbn [app]; [exact H2| | | | | |];
    constructor; auto.
Qed.

Lemma played_app_inv e1 : forall w e2 w',
  played w (e1 ++ e2) w' -> exists wm, played w e1 wm /\ played wm e2 w'.
Proof.
  induction e1 as [|e e1 IH]; intros w e2 w' Hp.
  - exists w. split; [constructor | exact Hp].
  - cbn [app] in Hp. inversion Hp; subst;
      match goal with
      | Hq : played _ (e1 ++ e2) w' |- _ =>
          destruct (IH _ _ _ Hq) as (wm & H1 & H2)
      end;
      exists wm; (split; [constructor; exact H1 | exact H2]).
Qed.

Lemma played_rdFrame_inv sda addr v w es w' :
  played w (rdFrame sda addr v ++ es) w' ->
  v = rdAnswer sda addr w /\ played (rdWorld sda addr w) es w'.
Proof.
  unfold rdFrame, rdAnswer, rdWorld. cbn [app]. intros Hp.
  inversion Hp as [|? ? ? ? ? H1| | | | |]; subst; clear Hp.
  inversion H1 as [| |? ? ? ? H2| | | |]; subst; clear H1.
  inversion H2 as [| | |? ? ? H3| | |]; subst; clear H2.
  inversion H3 as [|? ? ? ? ? H4| | | | |]; subst; clear H3.
  split; [reflexivity | exact H4].
Qed.

Lemma plays_ret {A : Type} (a : A) : plays (@ret W A a).
Proof. intros s x s' es E. inversion E; subst. constructor. Qed.

Lemma plays_gets {A : Type} (f : St W -> A) : plays (gets f).
Proof. intros s x s' es E. inversion E; subst. constructor. Qed.

Lemma plays_spin {A : Type} : plays (@spin W A).
Proof. intros s x s' es E. discriminate E. Qed.

Lemma plays_bind {A B : Type} (m : M W A) (k : A -> M W B) :
  plays m -> (forall a, plays (k a)) -> plays (bind m k).
Proof.
  intros Hm Hk s b s' es E.
  apply bind_inv in E as (a & s1 & e1 & e2 & E1 & E2 & ->).
  exact (played_app _ _ _ _ _ (Hm _ _ _ _ E1) (Hk a _ _ _ _ E2)).
Qed.

Lemma plays_digitalWritePin p l : plays (digitalWritePin p l).
Proof. intros s x s' es E. inversion E; subst. repeat constructor. Qed.

Lemma plays_spiWrite b : plays (spiWrite b).
Proof. intros s x s' es E. inversion E; subst. repeat constructor. Qed.

Lemma plays_spiRead : plays spiRead.
Proof.
  intros s x s' es E. unfold spiRead in E.
  pose proof (played_read (world s) [] _ (played_nil _)) as Hp.
  destruct (pins_spiRead (world s)) as [v w]. inversion E; subst. exact Hp.
Qed.

Lemma plays_runningTime : plays runningTime.
Proof.
  intros s x s' es E. unfold runningTime in E.
  pose proof (played_time (world s) [] _ (played_nil _)) as Hp.
  destruct (input_runningTime (world s)) as [t w]. inversion E; subst. exact Hp.
Qed.

Create HintDb plays.
#[local] Hint Resolve plays_ret plays_gets plays_spin plays_digitalWritePin
  plays_spiWrite plays_spiRead plays_runningTime : plays.

Ltac plays_steps :=
  repeat first
    [ solve [auto with plays]
    | apply plays_bind; [|intros ?] ].

Lemma plays_writeRegister addr v : plays (writeRegister addr v).
Proof. unfold writeRegister. plays_steps. Qed.

Lemma plays_readRegister addr : plays (readRegister addr).
Proof. unfold readRegister. plays_steps. Qed.

#[local] Hint Resolve plays_writeRegister plays_readRegister : plays.

Lemma plays_setBitMask reg mask : plays (setBitMask reg mask).
Proof. unfold setBitMask. plays_steps. Qed.

Lemma plays_clearBitMask reg mask : plays (clearBitMask reg mask).
Proof. unfold clearBitMask. plays_steps. Qed.

Lemma plays_writeFifo data : plays (writeFifo data).
Proof. induction data as [|b rest IH]; cbn [writeFifo]; plays_steps. Qed.

Lemma plays_readFifo n : forall acc, plays (readFifo n acc).
Proof. induction n as [|n IH]; intros acc; cbn [readFifo]; plays_steps. Qed.

Lemma plays_crcPoll n : plays (crcPoll n).
Proof.
  induction n as [|n IH]; cbn [crcPoll]; plays_steps.
  destruct (truthy _); plays_steps.
Qed.

Lemma plays_waitLoop fuel waitIRq start timeoutMs :
  plays (waitLoop fuel waitIRq start timeoutMs).
Proof.
  induction fuel as [|fuel IH]; cbn [waitLoop]; plays_steps.
  destruct (truthy _); [plays_steps|].
  destruct (truthy _); plays_steps.
  destruct (_ >? _); plays_steps.
Qed.

#[local] Hint Resolve plays_setBitMask plays_clearBitMask plays_writeFifo
  plays_readFifo plays_crcPoll plays_waitLoop : plays.

Lemma plays_calculateCRC data : plays (calculateCRC data).
Proof. unfold calculateCRC. plays_steps. Qed.

Lemma plays_communicateWithPICC fuel command sendData timeoutMs :
  plays (communicateWithPICC fuel command sendData timeoutMs).
Proof.
  unfold communicateWithPICC. plays_steps.
  - destruct (command =? PCD_TRANSCEIVE); plays_steps.
  - destruct (_ || _); [plays_steps|].
    destruct (command =? PCD_TRANSCEIVE); plays_steps.
Qed.

(** ** The register access layer: framing *)

Lemma framed_address addr :
  0 <= addr <= 63 ->
  Z.land (Z.shiftl addr 1) 0x7E = 2 * addr /\
  Z.lor (Z.land (Z.shiftl addr 1) 0x7E) 0x80 = 2 * addr + 128.
Proof.
  intros Hr.
  assert (Hn : exists n, (n < 64)%nat /\ addr = Z.of_nat n)
    by (exists (Z.to_nat addr); lia).
  destruct Hn as (n & Hn & ->). clear Hr.
  do 64 (destruct n as [|n]; [split; reflexivity|]).
  lia.
Qed.

(** C7.  For a register address between 0 and 63 and any value,
    [writeRegister] pulls chip-select low, sends the two bytes
    [(addr << 1) & 0x7E] and [value], and releases chip-select;
    [readRegister] pulls chip-select low, sends the one byte
    [((addr << 1) & 0x7E) | 0x80], clocks one byte in, releases chip-select
    and returns the byte clocked in.  These are the calls made on the
    platform, in that order and no others: the world afterwards is the one
    those calls leave, and the byte returned is the one the platform gave.
    On that range the framed bytes are [2 * addr] (bit 7 and bit 0 clear)
    and [2 * addr + 128] (bit 7 set). *)
Theorem register_access_framing addr value s :
  0 <= addr <= 63 ->
  let sda := _sdaPin s in
  let wa := Z.land (Z.shiftl addr 1) 0x7E in
  let ra := Z.lor (Z.land (Z.shiftl addr 1) 0x7E) 0x80 in
  let answer := pins_spiRead (pins_spiWrite ra (pins_digitalWritePin sda 0 (world s))) in
  writeRegister addr value s =
    Some (tt,
          setWorld
            (pins_digitalWritePin sda 1
               (pins_spiWrite value
                  (pins_spiWrite wa (pins_digitalWritePin sda 0 (world s))))) s,
          [DigitalWrite sda 0; SpiWrite wa; SpiWrite value; DigitalWrite sda 1]) /\
  readRegister addr s =
    Some (fst answer,
          setWorld (pins_digitalWritePin sda 1 (snd answer)) s,
          [DigitalWrite sda 0; SpiWrite ra; SpiRead (fst answer);
           DigitalWrite sda 1]) /\
  wa = 2 * addr /\ ra = 2 * addr + 128.
Proof.
  intros Hr sda wa ra answer. split; [|split].
  - reflexivity.
  - unfold readRegister, bind, gets, digitalWritePin, spiWrite, spiRead, ret.
    subst answer. cbn. fold sda ra.
    destruct (pins_spiRead _) as [v w]. reflexivity.
  - exact (framed_address addr Hr).
Qed.

(** ** The CRC coprocessor invocation *)

(** C6.  [calculateCRC] first sets the coprocessor up, then does nothing
    but poll the divider-interrupt register: the traffic after the setup
    is a run of reads of that register with no other platform call in
    between (no clock reading, no pause).  Either one of the first 255
    polls sees the CRC-ready bit 0x04, after which registers 0x22 and
    0x21 are read and the answer is the two bytes read, low then high, as
    they came; or 255 polls see the bit clear and the answer is (0, 0).
    The traffic is the one the platform plays: every poll value is what the
    platform answered, and the two bytes returned are what it answered to
    the reads of 0x22 and 0x21 made right after the successful poll. *)
Theorem calculateCRC_bounded_poll data s :
  let sda := _sdaPin s in
  exists r w d polls,
    calculateCRC data s =
    Some (r, setWorld w s, crcSetup sda data d ++ polls) /\
    played (world s) (crcSetup sda data d ++ polls) w /\
    ((exists vs v l h,
         (List.length (vs ++ [v]) <= 255)%nat /\
         Forall (fun x => Z.land x 0x04 = 0) vs /\
         Z.land v 0x04 <> 0 /\
         polls = rdFrames sda DivIrqReg (vs ++ [v]) ++
                 rdFrame sda 0x22 l ++ rdFrame sda 0x21 h /\
         r = [l; h] /\
         exists wr,
           played (world s)
                  (crcSetup sda data d ++ rdFrames sda DivIrqReg (vs ++ [v])) wr /\
           l = rdAnswer sda 0x22 wr /\
           h = rdAnswer sda 0x21 (rdWorld sda 0x22 wr))
     \/
     (exists vs,
         List.length vs = 255%nat /\
         Forall (fun x => Z.land x 0x04 = 0) vs /\
         polls = rdFrames sda DivIrqReg vs /\
         r = [0; 0])).
Proof.
  intros sda.
  destruct (calculateCRC_yields data s) as (r & w & es & E & d & polls & -> & Hp).
  pose proof (plays_calculateCRC data _ _ _ _ E) as Hplay.
  cbn [world setWorld] in Hplay. fold sda in Hplay.
  exists r, w, d, polls. split; [exact E|]. split; [exact Hplay|].
  destruct Hp as [(vs & v & l & h & Hl & Hvs & Hv & Hes & Hr)|Hp].
  - left. exists vs, v, l, h. rewrite length_app. cbn [List.length].
    fold sda in Hes.
    repeat (split; [first [assumption | lia]|]).
    rewrite Hes, app_assoc in Hplay.
    apply played_app_inv in Hplay as (wr & H1 & H2).
    apply played_rdFrame_inv in H2 as [Hlv H2].
    rewrite <- (app_nil_r (rdFrame sda 33 h)) in H2.
    apply played_rdFrame_inv in H2 as [Hhv _].
    exists wr. auto.
  - right. exact Hp.
Qed.

(** ** The command engine *)

(** C2.  Whenever [communicateWithPICC] returns, its traffic shows, after
    the wait loop and the clearing of the start-send bit, one read of the
    error register and then one read of the communication-interrupt
    register.  The call reports failure exactly when the second read has
    the timer bit 0x01 set or the first has a bit of 0x1B set; how the
    wait loop ended (wait flag seen or not) plays no part.  On failure
    the result is [{status: false, backData: [], backBits: 0}] and nothing
    more goes over the bus.  The traffic is the one the platform plays,
    from the world the call starts in to the world it ends in, and the two
    values that decide are what the platform answers to the reads of the
    error and communication-interrupt registers in the world [w2] reached
    once the start-send bit is cleared.  (That the call returns, given
    enough fuel, on a platform whose clock advances is
    [communicateWithPICC_returns].) *)
Theorem communicate_failure_iff fuel command sendData timeoutMs s r s' es :
  communicateWithPICC fuel command sendData timeoutMs s = Some (r, s', es) ->
  let sda := _sdaPin s in
  exists setup start polls bf error irq post,
    es = setup ++ RunningTime start :: polls ++
         clearBitFrames sda BitFramingReg 0x80 bf ++
         rdFrame sda ErrorReg error ++
         rdFrame sda CommIrqReg irq ++
         post /\
    waited sda (snd (irqMasks command)) start timeoutMs polls /\
    (status r = false <-> Z.land irq 0x01 <> 0 \/ Z.land error 0x1B <> 0) /\
    (status r = false -> r = mkCommResult false [] 0 /\ post = []) /\
    played (world s) es (world s') /\
    exists w2,
      played (world s)
             (setup ++ RunningTime start :: polls ++
              clearBitFrames sda BitFramingReg 0x80 bf) w2 /\
      error = rdAnswer sda ErrorReg w2 /\
      irq = rdAnswer sda CommIrqReg (rdWorld sda ErrorReg w2) /\
      played (rdWorld sda CommIrqReg (rdWorld sda ErrorReg w2)) post (world s').
Proof.
  intros E sda.
  pose proof (plays_communicateWithPICC _ _ _ _ _ _ _ _ E) as Hplay.
  destruct (communicateWithPICC_ensures _ _ _ _ _ _ _ _ E)
    as [_ (c & f & b & start & polls & bf & error & irq & post & -> & Hw & Ho)].
  fold sda in Hplay.
  exists (commSetup sda command sendData c f b), start, polls, bf, error, irq, post.
  split; [reflexivity|]. split; [exact Hw|].
  assert (Htie : exists w2,
      played (world s)
             (commSetup sda command sendData c f b ++ RunningTime start :: polls ++
              clearBitFrames sda BitFramingReg 0x80 bf) w2 /\
      error = rdAnswer sda ErrorReg w2 /\
      irq = rdAnswer sda CommIrqReg (rdWorld sda ErrorReg w2) /\
      played (rdWorld sda CommIrqReg (rdWorld sda ErrorReg w2)) post (world s')).
  { pose proof Hplay as Hp.
    replace (commSetup sda command sendData c f b ++ RunningTime start :: polls ++
             clearBitFrames sda BitFramingReg 0x80 bf ++
             rdFrame sda ErrorReg error ++ rdFrame sda CommIrqReg irq ++ post)
      with ((commSetup sda command sendData c f b ++ RunningTime start :: polls ++
             clearBitFrames sda BitFramingReg 0x80 bf) ++
            rdFrame sda ErrorReg error ++ rdFrame sda CommIrqReg irq ++ post) in Hp
      by (rewrite <- !app_assoc, <- app_comm_cons, <- !app_assoc; reflexivity).
    apply played_app_inv in Hp as (w2 & H1 & H2).
    apply played_rdFrame_inv in H2 as [He H2].
    apply played_rdFrame_inv in H2 as [Hi H2].
    exists w2. auto. }
  unfold commOutcome in Ho.
  destruct (truthy (Z.land irq 1)) eqn:Ei; destruct (truthy (Z.land error 27)) eqn:Ee;
    cbn [orb] in Ho;
    first [apply truthy_true in Ei | apply truthy_false in Ei];
    first [apply truthy_true in Ee | apply truthy_false in Ee].
  1-3: destruct Ho as [-> ->]; cbn [status];
    (split; [split; [intros _; tauto | reflexivity] | auto]).
  assert (Hs : status r = true).
  { destruct (command =? PCD_TRANSCEIVE).
    - destruct Ho as (? & ? & ? & _ & _ & ->). reflexivity.
    - destruct Ho as [-> _]. reflexivity. }
  rewrite Hs. split; [|split; [discriminate|split; [exact Hplay|exact Htie]]].
  split; [discriminate|]. intros [Hc|Hc]; contradiction.
Qed.

Lemma irqMasks_other command :
  command <> PCD_TRANSCEIVE -> irqMasks command = (0x12, 0x00).
Proof.
  intros Hc. unfold irqMasks.
  destruct (command =? PCD_TRANSCEIVE) eqn:E; [|reflexivity].
  apply Z.eqb_eq in E. contradiction.
Qed.

Lemma waited_zero_mask sda start timeoutMs polls :
  waited sda 0 start timeoutMs polls ->
  (exists before n,
      polls = before ++ rdFrame sda CommIrqReg n /\ Z.land n 0x01 <> 0) \/
  (exists before now,
      polls = before ++ [RunningTime now] /\ now - start > timeoutMs).
Proof.
  induction 1 as [n Hn|n Hn Ht|n now Hn Ht Ho|n now es Hn Ht Ho Hw IH].
  - rewrite Z.land_0_r in Hn. contradiction.
  - left. exists [], n. auto.
  - right. exists (rdFrame sda CommIrqReg n), now. auto.
  - destruct IH as [(before & m & -> & Hm)|(before & m & -> & Hm)].
    + left. exists (rdFrame sda CommIrqReg n ++ RunningTime now :: before), m.
      rewrite <- app_assoc. auto.
    + right. exists (rdFrame sda CommIrqReg n ++ RunningTime now :: before), m.
      rewrite <- app_assoc. auto.
Qed.

(** C3, as amended.  For a command other than TRANSCEIVE the engine
    enables interrupts with mask 0x12 (sent as [0x12 | 0x80]) and waits on
    the zero mask.  With the zero mask no interrupt flag of the mask can
    end the wait: the loop polls the communication-interrupt register
    until a poll shows the timer bit 0x01 or a clock reading is more than
    [timeoutMs] past the reading taken before the loop. *)
Theorem communicate_other_commands_wait fuel command sendData timeoutMs s r s' es :
  command <> PCD_TRANSCEIVE ->
  communicateWithPICC fuel command sendData timeoutMs s = Some (r, s', es) ->
  let sda := _sdaPin s in
  irqMasks command = (0x12, 0x00) /\
  exists c f start polls rest,
    es = wrFrame sda CommIEnReg (Z.lor 0x12 0x80) ++
         clearBitFrames sda CommIrqReg 0x80 c ++
         setBitFrames sda FIFOLevelReg 0x80 f ++
         wrFrame sda CommandReg PCD_IDLE ++
         wrFrames sda FIFODataReg sendData ++
         wrFrame sda CommandReg command ++
         RunningTime start :: polls ++ rest /\
    waited sda 0x00 start timeoutMs polls /\
    ((exists before n,
         polls = before ++ rdFrame sda CommIrqReg n /\ Z.land n 0x01 <> 0) \/
     (exists before now,
         polls = before ++ [RunningTime now] /\ now - start > timeoutMs)).
Proof.
  intros Hc E sda. split; [exact (irqMasks_other _ Hc)|].
  destruct (communicateWithPICC_ensures _ _ _ _ _ _ _ _ E)
    as [_ (c & f & b & start & polls & bf & error & irq & post & -> & Hw & _)].
  rewrite (irqMasks_other _ Hc) in Hw. cbn [snd] in Hw.
  exists c, f, start, polls,
    (clearBitFrames sda BitFramingReg 0x80 bf ++
     rdFrame sda ErrorReg error ++ rdFrame sda CommIrqReg irq ++ post).
  split; [|split; [exact Hw | exact (waited_zero_mask _ _ _ _ Hw)]].
  unfold commSetup. rewrite (irqMasks_other _ Hc). cbn [fst].
  apply Z.eqb_neq in Hc. rewrite Hc.
  rewrite <- !app_assoc. reflexivity.
Qed.

(** ** The public operations *)

Lemma bind_eq {A B : Type} (m : M W A) (k : A -> M W B) s a s1 e1 :
  m s = Some (a, s1, e1) ->
  bind m k s =
  match k a s1 with
  | None => None
  | Some (b, s2, e2) => Some (b, s2, e1 ++ e2)
  end.
Proof. unfold bind; intros ->; reflexivity. Qed.

Lemma bind_gets {A B : Type} (f : St W -> A) (k : A -> M W B) s :
  bind (gets f) k s = k (f s) s.
Proof.
  unfold bind, gets. destruct (k (f s) s) as [[[b s2] e2]|]; reflexivity.
Qed.

Lemma uid_slice (bd : list Z) :
  (5 <= List.length bd)%nat ->
  firstn 4 (map (fun i => nth i bd 0) (seq 0 5)) = firstn 4 bd.
Proof.
  destruct bd as [|a [|b [|c [|d [|e rest]]]]]; cbn [List.length]; try lia.
  reflexivity.
Qed.

(** C5.  When the REQUEST_IDLE exchange returns failure or no byte,
    [readUID] answers the empty string and stops there: its final state
    and its traffic are those of that first exchange, so no ANTICOLLISION
    exchange takes place.  When the first exchange gives something and
    the ANTICOLLISION exchange returns failure or fewer than 5 bytes,
    [readUID] answers the empty string as well. *)
Theorem readUID_not_found fuel s s0 e0 r1 s1 e1 :
  _initialized s = true ->
  writeRegister BitFramingReg 0x07 s = Some (tt, s0, e0) ->
  communicateWithPICC fuel PCD_TRANSCEIVE [PICC_REQIDL] 200 s0 = Some (r1, s1, e1) ->
  (status r1 = false \/ backData r1 = [] ->
   readUID fuel s = Some (EmptyString, s1, e0 ++ e1)) /\
  (forall s2 e2 r2 s3 e3,
      status r1 = true -> backData r1 <> [] ->
      writeRegister BitFramingReg 0x00 s1 = Some (tt, s2, e2) ->
      communicateWithPICC fuel PCD_TRANSCEIVE [PICC_ANTICOLL; 0x20] 200 s2 =
        Some (r2, s3, e3) ->
      status r2 = false \/ (List.length (backData r2) < 5)%nat ->
      readUID fuel s = Some (EmptyString, s3, e0 ++ e1 ++ e2 ++ e3)).
Proof.
  intros Hi Hw0 Hc1. unfold readUID. rewrite bind_gets, Hi. cbn [negb].
  rewrite (bind_eq _ _ _ _ _ _ Hw0), (bind_eq _ _ _ _ _ _ Hc1).
  split.
  - intros Hnone.
    assert (Hcond : negb (status r1) || (List.length (backData r1) =? 0)%nat = true).
    { destruct Hnone as [->| ->]; [reflexivity | apply orb_true_r]. }
    rewrite Hcond. cbn. rewrite app_nil_r. reflexivity.
  - intros s2 e2 r2 s3 e3 Hs1 Hd1 Hw2 Hc2 Hnone.
    assert (Hcond1 : negb (status r1) || (List.length (backData r1) =? 0)%nat = false).
    { rewrite Hs1. destruct (backData r1); [contradiction | reflexivity]. }
    rewrite Hcond1.
    rewrite (bind_eq _ _ _ _ _ _ Hw2), (bind_eq _ _ _ _ _ _ Hc2).
    assert (Hcond2 : negb (status r2) || (List.length (backData r2) <? 5)%nat = true).
    { destruct Hnone as [->|Hl]; [reflexivity|].
      apply Nat.ltb_lt in Hl. rewrite Hl. apply orb_true_r. }
    rewrite Hcond2. cbn. rewrite app_nil_r. reflexivity.
Qed.

(** C4.  When both exchanges succeed and the ANTICOLLISION exchange
    returns at least 5 bytes, [readUID] answers the text of the first 4
    bytes received, from which those bytes can be read back (each reduced
    to its low 8 bits, as [toHexString] does).  The exclusive-OR of the 4
    bytes is computed and compared with the 5th byte, but nothing depends
    on the comparison: the answer is the same whether or not the 5th byte
    is the checksum. *)
Theorem readUID_identifier fuel s s0 e0 r1 s1 e1 s2 e2 r2 s3 e3 :
  _initialized s = true ->
  writeRegister BitFramingReg 0x07 s = Some (tt, s0, e0) ->
  communicateWithPICC fuel PCD_TRANSCEIVE [PICC_REQIDL] 200 s0 = Some (r1, s1, e1) ->
  status r1 = true -> backData r1 <> [] ->
  writeRegister BitFramingReg 0x00 s1 = Some (tt, s2, e2) ->
  communicateWithPICC fuel PCD_TRANSCEIVE [PICC_ANTICOLL; 0x20] 200 s2 =
    Some (r2, s3, e3) ->
  status r2 = true -> (5 <= List.length (backData r2))%nat ->
  let uid4 := firstn 4 (backData r2) in
  readUID fuel s = Some (Hex.toHexString uid4, s3, e0 ++ e1 ++ e2 ++ e3) /\
  parseHex (Hex.toHexString uid4) = map (fun x => Z.land x 0xFF) uid4 /\
  List.length uid4 = 4%nat.
Proof.
  intros Hi Hw0 Hc1 Hs1 Hd1 Hw2 Hc2 Hs2 Hl2 uid4.
  split; [|split; [apply parseHex_toHexString | apply firstn_length_le; lia]].
  unfold readUID. rewrite bind_gets, Hi. cbn [negb].
  rewrite (bind_eq _ _ _ _ _ _ Hw0), (bind_eq _ _ _ _ _ _ Hc1).
  assert (Hcond1 : negb (status r1) || (List.length (backData r1) =? 0)%nat = false).
  { rewrite Hs1. destruct (backData r1); [contradiction | reflexivity]. }
  rewrite Hcond1.
  rewrite (bind_eq _ _ _ _ _ _ Hw2), (bind_eq _ _ _ _ _ _ Hc2).
  assert (Hcond2 : negb (status r2) || (List.length (backData r2) <? 5)%nat = false).
  { rewrite Hs2. cbn [negb orb]. apply Nat.ltb_ge. exact Hl2. }
  rewrite Hcond2. rewrite (uid_slice _ Hl2).
  match goal with
  | |- context [if ?c then ret tt else ret tt] => destruct c
  end; cbn; rewrite app_nil_r; reflexivity.
Qed.

(** C8, as amended.  While [_initialized] is false, [tagPresent] answers
    false, [readUID] answers the empty string and [haltTag] returns, each
    at once, without any platform call and without touching the state,
    whatever the fuel (nothing is raised and nothing loops).  [readReg]
    has no such guard: it performs the framed register read and answers
    the byte received, initialized or not. *)
Theorem uninitialized_operations fuel addr s :
  _initialized s = false ->
  shortCircuits (tagPresent fuel) s false /\
  shortCircuits (readUID fuel) s EmptyString /\
  shortCircuits (haltTag fuel) s tt /\
  exists v w,
    readReg addr s = Some (v, setWorld w s, rdFrame (_sdaPin s) addr v).
Proof.
  intros Hi. unfold shortCircuits, tagPresent, readUID, haltTag.
  rewrite !bind_gets, Hi. cbn [negb].
  repeat split.
  destruct (readRegister_yields addr s) as (v & w & es & E & ->).
  exists v, w. exact E.
Qed.

(** C10.  Once initialized, [haltTag] computes the CRC of [[HALT, 0x00]],
    appends the two bytes of the answer, hands the four bytes to the
    command engine in TRANSCEIVE mode (they are the bytes loaded into the
    FIFO) and returns nothing: the engine's result, whatever its status,
    is dropped. *)
Theorem haltTag_discards_result fuel s crc s1 e1 r s2 e2 :
  _initialized s = true ->
  calculateCRC [PICC_HALT; 0x00] s = Some (crc, s1, e1) ->
  communicateWithPICC fuel PCD_TRANSCEIVE
    [PICC_HALT; 0x00; nth 0 crc 0; nth 1 crc 0] 200 s1 = Some (r, s2, e2) ->
  haltTag fuel s = Some (tt, s2, e1 ++ e2) /\
  crc = [nth 0 crc 0; nth 1 crc 0] /\
  exists c f b rest,
    e2 = commSetup (_sdaPin s) PCD_TRANSCEIVE
           [PICC_HALT; 0x00; nth 0 crc 0; nth 1 crc 0] c f b ++ rest.
Proof.
  intros Hi Hcrc Hc. split; [|split].
  - unfold haltTag. rewrite bind_gets, Hi. cbn [negb].
    rewrite (bind_eq _ _ _ _ _ _ Hcrc). cbn [app].
    rewrite (bind_eq _ _ _ _ _ _ Hc). cbn. rewrite app_nil_r. reflexivity.
  - destruct (yields_ensures _ _ _ (calculateCRC_yields _ s) _ _ _ Hcrc)
      as [_ (d & polls & _ & Hp)].
    destruct Hp as [(? & ? & l & h & _ & _ & _ & _ & ->)|(? & _ & _ & _ & ->)];
      reflexivity.
  - destruct (yields_ensures _ _ _ (calculateCRC_yields _ s) _ _ _ Hcrc)
      as [[w ->] _].
    destruct (communicateWithPICC_ensures _ _ _ _ _ _ _ _ Hc)
      as [_ (c & f & b & start & polls & bf & error & irq & post & -> & _)].
    exists c, f, b. eexists. reflexivity.
Qed.

(** ** The lifecycle manager *)

Lemma init_run sdaPin rstPin s :
  exists u s' es,
    init sdaPin rstPin s = Some (u, s', es) /\
    exists w v,
      s' = mkSt w sdaPin rstPin (_sckPin s) (_mosiPin s) (_misoPin s) true /\
      es = initTrace sdaPin rstPin (_misoPin s) (_mosiPin s) (_sckPin s) v.
Proof.
  unfold init, spiSetup, reset.
  eapply bind_then; [reflexivity|].
  set (s0 := mkSt (world s) sdaPin rstPin (_sckPin s) (_mosiPin s) (_misoPin s)
                  (_initialized s)).
  do 2 (eapply bind_then; [reflexivity|]).
  do 2 (eapply bind_then; [reflexivity|]).
  eapply bind_then.
  { unfold bind, gets, spiPins, spiFrequency. reflexivity. }
  cbn [_misoPin _mosiPin _sckPin _sdaPin _rstPin setWorld world s0].
  match goal with
  | |- context [bind _ _ ?st] => set (s1 := st)
  end.
  assert (Hs1 : _sdaPin s1 = sdaPin) by reflexivity.
  do 7 (eapply yields_then;
        [apply writeRegister_yields
        |intros [] ? ? ->; rewrite ?setWorld_setWorld, ?sdaPin_setWorld, ?Hs1]).
  eapply yields_then; [apply antennaOn_yields|].
  intros [] ? wa [v ->]. rewrite ?setWorld_setWorld, ?sdaPin_setWorld, ?Hs1.
  do 3 eexists. split; [reflexivity|].
  exists wa, v. split; [reflexivity|].
  unfold initTrace. rewrite app_nil_r. reflexivity.
Qed.

Lemma initTrace_writes sda rst miso mosi sck v :
  registerWrites (initTrace sda rst miso mosi sck v) =
  initWrites ++ antennaWrite v /\
  spiReads (initTrace sda rst miso mosi sck v) = [v].
Proof.
  unfold initTrace, antennaWrite.
  destruct (negb (Z.land v 3 =? 3)); split; reflexivity.
Qed.


(** ** Termination of the wait loop

    The wait loop is the one place where the driver can fail to return.
    It does return on every platform whose clock, read by
    [input.runningTime], never runs backwards and moves on by at least one
    millisecond in the course of a poll: at least [dRead] while a byte is
    clocked in and at least [dTime] between two readings. *)

Section TickingClock.

Variable clockOf : W -> Z.
Variables dRead dTime : Z.

Hypothesis dRead_nonneg : 0 <= dRead.
Hypothesis dTime_nonneg : 0 <= dTime.
Hypothesis poll_ticks : 1 <= dRead + dTime.
Hypothesis clock_read : forall w, fst (input_runningTime w) = clockOf w.
Hypothesis clock_after_read :
  forall w, clockOf w + dTime <= clockOf (snd (input_runningTime w)).
Hypothesis clock_pin :
  forall p l w, clockOf w <= clockOf (pins_digitalWritePin p l w).
Hypothesis clock_spiWrite :
  forall b w, clockOf w <= clockOf (pins_spiWrite b w).
Hypothesis clock_spiRead :
  forall w, clockOf w + dRead <= clockOf (snd (pins_spiRead w)).

Lemma readRegister_clock addr s :
  exists v w es,
    readRegister addr s = Some (v, setWorld w s, es) /\
    clockOf (world s) + dRead <= clockOf w.
Proof.
  unfold readRegister, bind, gets, digitalWritePin, spiWrite, spiRead, ret.
  cbn [world setWorld _sdaPin].
  match goal with
  | |- context [pins_spiRead ?x] =>
      pose proof (clock_spiRead x) as Hr;
      destruct (pins_spiRead x) as [v w1]
  end.
  cbn [snd world setWorld _sdaPin] in *.
  do 3 eexists. split; [reflexivity|].
  match goal with
  | |- _ <= clockOf (pins_digitalWritePin ?p ?l ?x) =>
      pose proof (clock_pin p l x)
  end.
  match type of Hr with
  | clockOf (pins_spiWrite ?b ?x) + _ <= _ =>
      pose proof (clock_spiWrite b x);
      match x with
      | pins_digitalWritePin ?p ?l ?y => pose proof (clock_pin p l y)
      end
  end.
  lia.
Qed.

Lemma runningTime_clock s :
  exists w,
    runningTime s =
    Some (clockOf (world s), setWorld w s, [RunningTime (clockOf (world s))]) /\
    clockOf (world s) + dTime <= clockOf w.
Proof.
  unfold runningTime.
  pose proof (clock_read (world s)) as Hr.
  pose proof (clock_after_read (world s)) as Ha.
  destruct (input_runningTime (world s)) as [t w]. cbn [fst snd] in *.
  subst t. exists w. split; [reflexivity | exact Ha].
Qed.

Lemma waitLoop_returns fuel waitIRq start timeoutMs s :
  (Z.to_nat (timeoutMs + start - clockOf (world s) + 1) < fuel)%nat ->
  exists w es,
    waitLoop fuel waitIRq start timeoutMs s = Some (tt, setWorld w s, es).
Proof.
  revert s. induction fuel as [|fuel IH]; intros s Hf; [lia|].
  cbn [waitLoop].
  destruct (readRegister_clock CommIrqReg s) as (n & w1 & e1 & E1 & Hc1).
  rewrite (bind_eq _ _ _ _ _ _ E1).
  destruct (truthy (Z.land n waitIRq)); [do 2 eexists; reflexivity|].
  destruct (truthy (Z.land n 1)); [do 2 eexists; reflexivity|].
  destruct (runningTime_clock (setWorld w1 s)) as (w2 & E2 & Hc2).
  cbn [world setWorld] in E2, Hc2.
  rewrite (bind_eq _ _ _ _ _ _ E2).
  destruct (clockOf w1 - start >? timeoutMs) eqn:Eo; [do 2 eexists; reflexivity|].
  rewrite Z.gtb_ltb in Eo. apply Z.ltb_ge in Eo.
  destruct (IH (setWorld w2 (setWorld w1 s))) as (w3 & e3 & E3).
  { cbn [world setWorld]. lia. }
  rewrite E3. do 2 eexists. reflexivity.
Qed.

(** [communicateWithPICC] returns as soon as the fuel covers the polls
    that fit in [timeoutMs] milliseconds, and what it returns is described
    by [commTrace]. *)
Theorem communicateWithPICC_returns fuel command sendData timeoutMs s :
  (Z.to_nat timeoutMs + 2 <= fuel)%nat ->
  exists r w es,
    communicateWithPICC fuel command sendData timeoutMs s =
      Some (r, setWorld w s, es) /\
    commTrace (_sdaPin s) command sendData timeoutMs r es.
Proof.
  intros Hf.
  assert (Hrun : exists r s' es,
             communicateWithPICC fuel command sendData timeoutMs s =
               Some (r, s', es) /\ True).
  { unfold communicateWithPICC.
    eapply yields_then; [apply writeRegister_yields | intros ? ? ? _].
    eapply yields_then; [apply clearBitMask_yields | intros ? ? ? _].
    eapply yields_then; [apply setBitMask_yields | intros ? ? ? _].
    eapply yields_then; [apply writeRegister_yields | intros ? ? ? _].
    eapply yields_then; [apply writeFifo_yields | intros ? ? ? _].
    eapply yields_then; [apply writeRegister_yields | intros ? ? ? _].
    eapply yields_then with (Q1 := fun _ _ => True).
    { destruct (command =? PCD_TRANSCEIVE).
      - eapply yields_weaken; [apply setBitMask_yields | auto].
      - apply yields_ret. exact I. }
    intros ? ? ? _. rewrite !setWorld_setWorld.
    match goal with
    | |- context [bind runningTime _ ?st] =>
        destruct (runningTime_clock st) as (wStart & EStart & HcStart)
    end.
    cbn [world setWorld] in EStart, HcStart.
    eapply bind_then; [exact EStart|]. rewrite !setWorld_setWorld.
    match goal with
    | |- context [waitLoop fuel ?m ?st ?t] =>
        destruct (waitLoop_returns fuel m st t (setWorld wStart s))
          as (wLoop & eLoop & ELoop)
    end.
    { cbn [world setWorld]. lia. }
    eapply bind_then; [exact ELoop|]. rewrite !setWorld_setWorld.
    eapply yields_then; [apply clearBitMask_yields | intros ? ? ? _].
    eapply yields_then; [apply readRegister_yields | intros error ? ? _].
    eapply yields_then; [apply readRegister_yields | intros irq ? ? _].
    destruct (truthy (Z.land irq 1) || truthy (Z.land error 27));
      [do 3 eexists; split; [reflexivity | exact I]|].
    destruct (command =? PCD_TRANSCEIVE);
      [|do 3 eexists; split; [reflexivity | exact I]].
    eapply yields_then; [apply readRegister_yields | intros ? ? ? _].
    eapply yields_then; [apply readFifo_yields | intros ? ? ? _].
    eapply yields_then; [apply readRegister_yields | intros ? ? ? _].
    do 3 eexists; split; [reflexivity | exact I]. }
  destruct Hrun as (r & s' & es & E & _).
  destruct (communicateWithPICC_ensures _ _ _ _ _ _ _ _ E) as [[w ->] Ht].
  exists r, w, es. split; [exact E | exact Ht].
Qed.

(** X16.  On such a platform the public operations never hang: with
    their timeout of 200 ms, and fuel for the 202 polls that fit in it,
    [tagPresent], [readUID] and [haltTag] all return from every state,
    leaving the pins and the initialized flag as they were. *)
Theorem public_operations_return fuel s :
  (202 <= fuel)%nat ->
  (exists b w es, tagPresent fuel s = Some (b, setWorld w s, es)) /\
  (exists text w es, readUID fuel s = Some (text, setWorld w s, es)) /\
  (exists w es, haltTag fuel s = Some (tt, setWorld w s, es)).
Proof.
  intros Hf.
  assert (Hc : forall data st,
             exists r w es,
               communicateWithPICC fuel PCD_TRANSCEIVE data 200 st =
               Some (r, setWorld w st, es)).
  { intros data st.
    destruct (communicateWithPICC_returns fuel PCD_TRANSCEIVE data 200 st)
      as (r & w & es & E & _); [lia|].
    exists r, w, es. exact E. }
  assert (Hidle : forall {A : Type} (a : A),
             exists x w es, ret a s = Some (x, setWorld w s, es)).
  { intros A a. exists a, (world s), []. rewrite setWorld_world. reflexivity. }
  split; [|split].
  - unfold tagPresent. rewrite bind_gets.
    destruct (_initialized s); cbn [negb]; [|apply Hidle].
    destruct (writeRegister_yields BitFramingReg 7 s) as ([] & w0 & e0 & E0 & _).
    rewrite (bind_eq _ _ _ _ _ _ E0).
    destruct (Hc [PICC_REQIDL] (setWorld w0 s)) as (r1 & w1 & e1 & E1).
    rewrite (bind_eq _ _ _ _ _ _ E1). do 3 eexists. reflexivity.
  - unfold readUID. rewrite bind_gets.
    destruct (_initialized s); cbn [negb]; [|apply Hidle].
    destruct (writeRegister_yields BitFramingReg 7 s) as ([] & w0 & e0 & E0 & _).
    rewrite (bind_eq _ _ _ _ _ _ E0).
    destruct (Hc [PICC_REQIDL] (setWorld w0 s)) as (r1 & w1 & e1 & E1).
    rewrite (bind_eq _ _ _ _ _ _ E1).
    destruct (negb (status r1) || (List.length (backData r1) =? 0)%nat);
      [do 3 eexists; reflexivity|].
    destruct (writeRegister_yields BitFramingReg 0 (setWorld w1 (setWorld w0 s)))
      as ([] & w2 & e2 & E2 & _).
    rewrite (bind_eq _ _ _ _ _ _ E2).
    destruct (Hc [PICC_ANTICOLL; 0x20]
                (setWorld w2 (setWorld w1 (setWorld w0 s))))
      as (r2 & w3 & e3 & E3).
    rewrite (bind_eq _ _ _ _ _ _ E3).
    destruct (negb (status r2) || (List.length (backData r2) <? 5)%nat);
      [do 3 eexists; reflexivity|].
    match goal with
    | |- context [if ?c then ret tt else ret tt] => destruct c
    end; do 3 eexists; reflexivity.
  - unfold haltTag. rewrite bind_gets.
    destruct (_initialized s); cbn [negb].
    + destruct (calculateCRC_yields [PICC_HALT; 0] s) as (crc & w0 & e0 & E0 & _).
      rewrite (bind_eq _ _ _ _ _ _ E0).
      match goal with
      | |- context [communicateWithPICC fuel PCD_TRANSCEIVE ?buf 200] =>
          destruct (Hc buf (setWorld w0 s)) as (r1 & w1 & e1 & E1)
      end.
      rewrite (bind_eq _ _ _ _ _ _ E1). do 2 eexists. reflexivity.
    + exists (world s), []. rewrite setWorld_world. reflexivity.
Qed.

End TickingClock.

(** More fuel never changes what the wait loop, and so the engine, returns. *)
Lemma waitLoop_more_fuel fuel fuel' waitIRq start timeoutMs s res :
  waitLoop fuel waitIRq start timeoutMs s = Some res ->
  (fuel <= fuel')%nat ->
  waitLoop fuel' waitIRq start timeoutMs s = Some res.
Proof.
  revert fuel' s res. induction fuel as [|fuel IH]; intros fuel' s res E Hle;
    [discriminate E|].
  destruct fuel' as [|fuel']; [lia|].
  cbn [waitLoop] in E |- *. unfold bind in E |- *.
  destruct (readRegister CommIrqReg s) as [[[n s1] e1]|]; [|discriminate E].
  destruct (truthy (Z.land n waitIRq)); [exact E|].
  destruct (truthy (Z.land n 1)); [exact E|].
  destruct (runningTime s1) as [[[now s2] e2]|]; [|discriminate E].
  destruct (now - start >? timeoutMs); [exact E|].
  destruct (waitLoop fuel waitIRq start timeoutMs s2) as [res'|] eqn:E';
    [|discriminate E].
  rewrite (IH fuel' s2 res' E'); [exact E | lia].
Qed.

Lemma communicateWithPICC_more_fuel fuel fuel' command sendData timeoutMs s res :
  communicateWithPICC fuel command sendData timeoutMs s = Some res ->
  (fuel <= fuel')%nat ->
  communicateWithPICC fuel' command sendData timeoutMs s = Some res.
Proof.
  intros E Hle. destruct res as [[r s'] es].
  unfold communicateWithPICC in E |- *.
  do 8 (apply bind_inv in E as (? & ? & ? & ? & ? & E & ->);
        eapply bind_run; [eassumption|]).
  apply bind_inv in E as (? & ? & ? & ? & Ew & E & ->).
  eapply bind_run; [exact (waitLoop_more_fuel _ _ _ _ _ _ _ Ew Hle) | exact E].
Qed.

(** * Further properties of the driver *)

(** ** Traces made of whole frames *)

Lemma wellFramed_app sda es1 es2 :
  wellFramed sda es1 -> wellFramed sda es2 -> wellFramed sda (es1 ++ es2).
Proof.
  induction 1 as [|a v es _ IH|a v es _ IH|t es _ IH]; intros H2.
  - exact H2.
  - rewrite <- app_assoc. apply framed_write, IH, H2.
  - rewrite <- app_assoc. apply framed_read, IH, H2.
  - apply (framed_clock sda t), IH, H2.
Qed.

Lemma wellFramed_wr sda a v : wellFramed sda (wrFrame sda a v).
Proof. rewrite <- (app_nil_r (wrFrame sda a v)). apply framed_write, framed_nil. Qed.

Lemma wellFramed_rd sda a v : wellFramed sda (rdFrame sda a v).
Proof. rewrite <- (app_nil_r (rdFrame sda a v)). apply framed_read, framed_nil. Qed.

Lemma wellFramed_wrFrames sda a vals : wellFramed sda (wrFrames sda a vals).
Proof.
  induction vals as [|v vals IH]; [apply framed_nil|].
  apply (framed_write sda a v), IH.
Qed.

Lemma wellFramed_rdFrames sda a vals : wellFramed sda (rdFrames sda a vals).
Proof.
  induction vals as [|v vals IH]; [apply framed_nil|].
  apply (framed_read sda a v), IH.
Qed.

Lemma wellFramed_setBit sda reg mask tmp :
  wellFramed sda (setBitFrames sda reg mask tmp).
Proof. apply framed_read, wellFramed_wr. Qed.

Lemma wellFramed_clearBit sda reg mask tmp :
  wellFramed sda (clearBitFrames sda reg mask tmp).
Proof. apply framed_read, wellFramed_wr. Qed.

Lemma wellFramed_waited sda waitIRq start timeoutMs polls :
  waited sda waitIRq start timeoutMs polls -> wellFramed sda polls.
Proof.
  induction 1 as [n Hn|n Hn Ht|n now Hn Ht Ho|n now es Hn Ht Ho Hw IH].
  - apply wellFramed_rd.
  - apply wellFramed_rd.
  - apply framed_read, framed_clock, framed_nil.
  - apply framed_read, framed_clock, IH.
Qed.

Create HintDb framed.
#[local] Hint Resolve wellFramed_app wellFramed_wr wellFramed_rd
  wellFramed_wrFrames wellFramed_rdFrames wellFramed_setBit
  wellFramed_clearBit framed_nil framed_clock : framed.

Lemma wellFramed_commTrace sda command sendData timeoutMs r es :
  commTrace sda command sendData timeoutMs r es -> wellFramed sda es.
Proof.
  intros (c & f & b & start & polls & bf & error & irq & post & -> & Hw & Ho).
  assert (Hpost : wellFramed sda post).
  { unfold commOutcome in Ho.
    destruct (truthy (Z.land irq 1) || truthy (Z.land error 27));
      [destruct Ho as [_ ->]; apply framed_nil|].
    destruct (command =? PCD_TRANSCEIVE);
      [|destruct Ho as [_ ->]; apply framed_nil].
    destruct Ho as (lvl & bytes & ctl & _ & -> & _). auto 6 with framed. }
  apply wellFramed_waited in Hw.
  unfold commSetup.
  destruct (command =? PCD_TRANSCEIVE); auto 20 with framed.
Qed.

Lemma wellFramed_crc sda data d polls r :
  crcPolled sda 255 polls r -> wellFramed sda (crcSetup sda data d ++ polls).
Proof.
  intros Hp.
  assert (Hpolls : wellFramed sda polls).
  { destruct Hp as [(vs & v & l & h & _ & _ & _ & -> & _)|(vs & _ & _ & -> & _)];
      auto 6 with framed. }
  unfold crcSetup. auto 12 with framed.
Qed.

(** The three readers of a trace, over traces made of frames. *)
Lemma registerWrites_app sda es1 es2 :
  wellFramed sda es1 ->
  registerWrites (es1 ++ es2) = registerWrites es1 ++ registerWrites es2.
Proof.
  induction 1 as [|a v es _ IH|a v es _ IH|t es _ IH].
  - reflexivity.
  - rewrite <- app_assoc. cbn. rewrite IH. reflexivity.
  - rewrite <- app_assoc. cbn. exact IH.
  - cbn. exact IH.
Qed.

Lemma spiReads_app es1 es2 : spiReads (es1 ++ es2) = spiReads es1 ++ spiReads es2.
Proof.
  induction es1 as [|e es1 IH]; [reflexivity|].
  destruct e; cbn; rewrite IH; reflexivity.
Qed.

Lemma clockReads_app es1 es2 :
  clockReads (es1 ++ es2) = clockReads es1 ++ clockReads es2.
Proof.
  induction es1 as [|e es1 IH]; [reflexivity|].
  destruct e; cbn; rewrite IH; reflexivity.
Qed.

Lemma registerWrites_clock t es :
  registerWrites (RunningTime t :: es) = registerWrites es.
Proof. reflexivity. Qed.

Lemma registerWrites_wr1 sda a v :
  registerWrites (wrFrame sda a v) = [(Z.land (Z.shiftl a 1) 0x7E, v)].
Proof. reflexivity. Qed.

Lemma registerWrites_rd1 sda a v : registerWrites (rdFrame sda a v) = [].
Proof. reflexivity. Qed.

Lemma registerWrites_setBit sda reg mask tmp :
  registerWrites (setBitFrames sda reg mask tmp) =
  [(Z.land (Z.shiftl reg 1) 0x7E, bitOr tmp mask)].
Proof. reflexivity. Qed.

Lemma registerWrites_clearBit sda reg mask tmp :
  registerWrites (clearBitFrames sda reg mask tmp) =
  [(Z.land (Z.shiftl reg 1) 0x7E, bitAnd tmp (bitNot mask))].
Proof. reflexivity. Qed.

Lemma registerWrites_wrFrames sda a vals :
  registerWrites (wrFrames sda a vals) =
  map (fun x => (Z.land (Z.shiftl a 1) 0x7E, x)) vals.
Proof.
  induction vals as [|v vals IH]; [reflexivity|].
  cbn. f_equal. exact IH.
Qed.

Lemma registerWrites_rdFrames sda a vals :
  registerWrites (rdFrames sda a vals) = [].
Proof. induction vals as [|v vals IH]; [reflexivity | exact IH]. Qed.

Lemma registerWrites_waited sda waitIRq start timeoutMs polls :
  waited sda waitIRq start timeoutMs polls -> registerWrites polls = [].
Proof.
  induction 1 as [n Hn|n Hn Ht|n now Hn Ht Ho|n now es Hn Ht Ho Hw IH];
    try reflexivity.
  exact IH.
Qed.

Lemma spiReads_rdFrames sda a vals : spiReads (rdFrames sda a vals) = vals.
Proof.
  induction vals as [|v vals IH]; [reflexivity|]. cbn. f_equal. exact IH.
Qed.

Lemma spiReads_wrFrames sda a vals : spiReads (wrFrames sda a vals) = [].
Proof. induction vals as [|v vals IH]; [reflexivity | exact IH]. Qed.

Lemma clockReads_rdFrames sda a vals : clockReads (rdFrames sda a vals) = [].
Proof. induction vals as [|v vals IH]; [reflexivity | exact IH]. Qed.

Lemma clockReads_wrFrames sda a vals : clockReads (wrFrames sda a vals) = [].
Proof. induction vals as [|v vals IH]; [reflexivity | exact IH]. Qed.

(** ** The command engine, further *)

(** X4.  Whenever [communicateWithPICC] returns, it has changed nothing
    of the module state but the world, and its traffic keeps the bus
    discipline: whole register accesses on the chip-select pin, each in its
    own bracket, with clock readings in between and nothing else; chip-select
    is released at the end on every path (success, failure, timeout). *)
Theorem communicate_bus_discipline fuel command sendData timeoutMs s r s' es :
  communicateWithPICC fuel command sendData timeoutMs s = Some (r, s', es) ->
  (exists w, s' = setWorld w s) /\ wellFramed (_sdaPin s) es.
Proof.
  intros E.
  destruct (communicateWithPICC_ensures _ _ _ _ _ _ _ _ E) as [Hs Ht].
  split; [exact Hs | exact (wellFramed_commTrace _ _ _ _ _ _ Ht)].
Qed.

(** X5.  The register writes of a call of [communicateWithPICC] that
    returns are fixed by the command, the data to send and four values
    read back; neither the polls nor the outcome add a write.  The data is
    loaded into the FIFO byte by byte, in order, before the command is
    issued (no byte at all for empty data), and the last write of every
    call is the one that clears the start-send bit (bit 7) of the
    bit-framing register. *)
Theorem communicate_register_writes fuel command sendData timeoutMs s r s' es :
  communicateWithPICC fuel command sendData timeoutMs s = Some (r, s', es) ->
  exists c f b bf,
    registerWrites es = commWrites command sendData c f b bf /\
    (exists before last,
        registerWrites es = before ++ [(0x1A, last)] /\
        Z.testbit last 7 = false).
Proof.
  intros E.
  destruct (communicateWithPICC_ensures _ _ _ _ _ _ _ _ E)
    as [_ (c & f & b & start & polls & bf & error & irq & post & -> & Hw & Ho)].
  set (sda := _sdaPin s) in *.
  assert (Hpost : registerWrites post = []).
  { unfold commOutcome in Ho.
    destruct (truthy (Z.land irq 1) || truthy (Z.land error 27));
      [destruct Ho as [_ ->]; reflexivity|].
    destruct (command =? PCD_TRANSCEIVE);
      [|destruct Ho as [_ ->]; reflexivity].
    destruct Ho as (lvl & bytes & ctl & _ & -> & _).
    cbn. rewrite (registerWrites_app sda) by apply wellFramed_rdFrames.
    rewrite registerWrites_rdFrames. reflexivity. }
  assert (Hw' := registerWrites_waited _ _ _ _ _ Hw).
  assert (Hwf := wellFramed_waited _ _ _ _ _ Hw).
  assert (Hall : registerWrites
            (commSetup sda command sendData c f b ++
             RunningTime start
             :: polls ++
                clearBitFrames sda BitFramingReg 128 bf ++
                rdFrame sda ErrorReg error ++ rdFrame sda CommIrqReg irq ++ post) =
          commWrites command sendData c f b bf).
  { unfold commSetup, commWrites.
    destruct (command =? PCD_TRANSCEIVE);
      rewrite <- ?app_assoc, ?app_nil_l;
      repeat first
        [ rewrite (registerWrites_app sda) by auto with framed
        | rewrite registerWrites_clock ];
      rewrite ?registerWrites_wr1, ?registerWrites_rd1, ?registerWrites_setBit,
        ?registerWrites_clearBit, ?registerWrites_wrFrames, Hw', Hpost;
      reflexivity. }
  exists c, f, b, bf. split; [exact Hall|].
  rewrite Hall. unfold commWrites.
  eexists. exists (bitAnd bf (bitNot 0x80)). split.
  - rewrite !app_assoc. reflexivity.
  - rewrite bitAnd_bits, bitNot_bits by lia. apply andb_false_r.
Qed.

Lemma clockReads_commSetup sda command sendData c f b :
  clockReads (commSetup sda command sendData c f b) = [].
Proof.
  unfold commSetup.
  destruct (command =? PCD_TRANSCEIVE);
    rewrite !clockReads_app, clockReads_wrFrames; reflexivity.
Qed.

Lemma commOutcome_post sda command error irq r post :
  commOutcome sda command error irq r post ->
  clockReads post = [] /\
  (post = [] /\ backData r = [] /\ backBits r = 0 \/
   command = PCD_TRANSCEIVE /\ status r = true /\
   exists fifoLevel ctl,
     spiReads post = fifoLevel :: backData r ++ [ctl] /\
     List.length (backData r) = Z.to_nat fifoLevel /\
     backBits r = Z.land ctl 0x07).
Proof.
  unfold commOutcome.
  destruct (truthy (Z.land irq 1) || truthy (Z.land error 27)).
  { intros [-> ->]. split; [reflexivity | left; auto]. }
  destruct (command =? PCD_TRANSCEIVE) eqn:Ec.
  - intros (lvl & bytes & ctl & Hl & -> & ->). apply Z.eqb_eq in Ec. split.
    + cbn. rewrite clockReads_app, clockReads_rdFrames. reflexivity.
    + right. split; [exact Ec|]. split; [reflexivity|].
      exists lvl, ctl. cbn. rewrite spiReads_app, spiReads_rdFrames. auto.
  - intros [-> ->]. split; [reflexivity | left; auto].
Qed.


(** X7.  The wait loop always polls at least once, whatever [timeoutMs]
    (zero and negative values included), and the flags are looked at before
    the clock: when the first poll shows a bit of the wait mask or the timer
    bit, the clock is never read again in that call, so the only clock
    reading of the whole call is the one taken before the loop. *)
Theorem communicate_first_poll fuel command sendData timeoutMs s r s' es :
  communicateWithPICC fuel command sendData timeoutMs s = Some (r, s', es) ->
  exists setup start n rest,
    es = setup ++ RunningTime start :: rdFrame (_sdaPin s) CommIrqReg n ++ rest /\
    clockReads setup = [] /\
    (Z.land n (snd (irqMasks command)) <> 0 \/ Z.land n 0x01 <> 0 ->
     clockReads es = [start]).
Proof.
  intros E.
  destruct (communicateWithPICC_ensures _ _ _ _ _ _ _ _ E)
    as [_ (c & f & b & start & polls & bf & error & irq & post & -> & Hw & Ho)].
  pose proof (commOutcome_post _ _ _ _ _ _ Ho) as [Hcp _].
  set (sda := _sdaPin s) in *.
  set (tail := clearBitFrames sda BitFramingReg 128 bf ++
               rdFrame sda ErrorReg error ++ rdFrame sda CommIrqReg irq ++ post).
  assert (Htail : clockReads tail = []).
  { unfold tail. rewrite !clockReads_app, Hcp. reflexivity. }
  exists (commSetup sda command sendData c f b), start.
  destruct Hw as [n Hn|n Hn Ht|n now Hn Ht Ho'|n now es Hn Ht Ho' Hw].
  - exists n, tail. split; [reflexivity|]. split; [apply clockReads_commSetup|].
    intros _. fold tail.
    rewrite clockReads_app, clockReads_commSetup.
    change (clockReads (RunningTime start :: rdFrame sda CommIrqReg n ++ tail))
      with (start :: clockReads (rdFrame sda CommIrqReg n ++ tail)).
    rewrite clockReads_app, Htail. reflexivity.
  - exists n, tail. split; [reflexivity|]. split; [apply clockReads_commSetup|].
    intros _. fold tail.
    rewrite clockReads_app, clockReads_commSetup.
    change (clockReads (RunningTime start :: rdFrame sda CommIrqReg n ++ tail))
      with (start :: clockReads (rdFrame sda CommIrqReg n ++ tail)).
    rewrite clockReads_app, Htail. reflexivity.
  - exists n, ([RunningTime now] ++ tail).
    split; [rewrite <- app_assoc; reflexivity|].
    split; [apply clockReads_commSetup|]. intros [Hc|Hc]; contradiction.
  - exists n, ((RunningTime now :: es) ++ tail).
    split; [rewrite <- app_assoc; reflexivity|].
    split; [apply clockReads_commSetup|]. intros [Hc|Hc]; contradiction.
Qed.

(** ** The register access layer, further *)

Lemma framed_mod addr : Z.land (Z.shiftl addr 1) 0x7E = 2 * (addr mod 64).
Proof.
  change 0x7E with (Z.shiftl 63 1). rewrite <- Z.shiftl_land.
  change 63 with (Z.ones 6). rewrite Z.land_ones by lia.
  rewrite Z.shiftl_mul_pow2 by lia. change (2 ^ 6) with 64. lia.
Qed.

(** X8.  Only the six low bits of a register address reach the bus: an
    access to any integer address is the access to that address modulo 64.
    In particular [readReg], whose block accepts addresses up to 255, reads
    register [addr mod 64], sending the one address byte
    [2 * (addr mod 64) + 128]. *)
Theorem register_address_aliasing addr v s :
  writeRegister addr v s = writeRegister (addr mod 64) v s /\
  readRegister addr s = readRegister (addr mod 64) s /\
  readReg addr s = readReg (addr mod 64) s /\
  exists x w,
    readReg addr s =
    Some (x, setWorld w s,
          [DigitalWrite (_sdaPin s) 0; SpiWrite (2 * (addr mod 64) + 128);
           SpiRead x; DigitalWrite (_sdaPin s) 1]).
Proof.
  assert (Hm : Z.land (Z.shiftl (addr mod 64) 1) 0x7E = Z.land (Z.shiftl addr 1) 0x7E).
  { rewrite !framed_mod, Z.mod_mod by lia. reflexivity. }
  assert (Hrd : readRegister addr s = readRegister (addr mod 64) s).
  { unfold readRegister. rewrite Hm. reflexivity. }
  split; [unfold writeRegister; rewrite Hm; reflexivity|].
  split; [exact Hrd|]. split; [exact Hrd|].
  unfold readReg. rewrite Hrd.
  destruct (readRegister_yields (addr mod 64) s) as (x & w & es & E & ->).
  exists x, w. rewrite E. unfold rdFrame.
  assert (Hr : 0 <= addr mod 64 <= 63)
    by (pose proof (Z.mod_pos_bound addr 64 eq_refl); lia).
  destruct (framed_address _ Hr) as [_ ->]. reflexivity.
Qed.


Lemma bitOr_high_bits v i :
  2 <= i < 32 -> Z.testbit (bitOr v 3) i = Z.testbit v i.
Proof.
  intros Hi. rewrite bitOr_bits by lia.
  rewrite (Z.bits_above_log2 3 i) by (cbn; lia). apply orb_false_r.
Qed.


(** ** The CRC coprocessor, further *)

(** X11.  [calculateCRC] always answers exactly two values, so the
    [crc[0]] and [crc[1]] of its caller are always defined.  Its register
    writes are fixed by the data and the one value read when the flag is
    cleared: the data goes into the FIFO byte by byte, in order, between the
    FIFO flush and the CALC_CRC command.  It never reads the clock, clocks
    in at most 258 bytes whatever the transport does, and keeps the bus
    discipline. *)
Theorem calculateCRC_traffic data s :
  exists r w es d,
    calculateCRC data s = Some (r, setWorld w s, es) /\
    List.length r = 2%nat /\
    registerWrites es = crcWrites data d /\
    clockReads es = [] /\
    (List.length (spiReads es) <= 258)%nat /\
    wellFramed (_sdaPin s) es.
Proof.
  destruct (calculateCRC_yields data s) as (r & w & es & E & d & polls & -> & Hp).
  set (sda := _sdaPin s) in *.
  exists r, w. eexists. exists d. split; [exact E|].
  assert (Hsetup : wellFramed sda (crcSetup sda data d))
    by (unfold crcSetup; auto 12 with framed).
  assert (Hws : registerWrites (crcSetup sda data d) = crcWrites data d).
  { unfold crcSetup, crcWrites.
    repeat rewrite (registerWrites_app sda) by auto with framed.
    rewrite ?registerWrites_wr1, ?registerWrites_setBit, ?registerWrites_wrFrames.
    reflexivity. }
  assert (Hcs : clockReads (crcSetup sda data d) = [] /\
                spiReads (crcSetup sda data d) = [d]).
  { unfold crcSetup. rewrite !clockReads_app, !spiReads_app.
    rewrite clockReads_wrFrames, spiReads_wrFrames. split; reflexivity. }
  destruct Hcs as [Hc Hs].
  rewrite (registerWrites_app sda) by exact Hsetup.
  rewrite clockReads_app, spiReads_app, Hws, Hc, Hs.
  assert (Hpolls : List.length r = 2%nat /\ registerWrites polls = [] /\
                   clockReads polls = [] /\
                   (List.length (spiReads polls) <= 257)%nat).
  { destruct Hp as [(vs & v & l & h & Hl & _ & _ & -> & ->)|(vs & Hl & _ & -> & ->)].
    - rewrite (registerWrites_app sda) by apply wellFramed_rdFrames.
      rewrite clockReads_app, spiReads_app.
      rewrite registerWrites_rdFrames, clockReads_rdFrames, spiReads_rdFrames.
      repeat split. cbn. rewrite !length_app. cbn. lia.
    - rewrite registerWrites_rdFrames, clockReads_rdFrames, spiReads_rdFrames.
      repeat split. lia. }
  destruct Hpolls as (Hr & Hwp & Hcp & Hsp).
  rewrite Hwp, Hcp, app_nil_r.
  repeat split; try assumption.
  - cbn. lia.
  - exact (wellFramed_crc sda data d polls r Hp).
Qed.

(** ** The public operations, further *)

Lemma ensures_gets_bind {A B : Type} (f : St W -> A) (k : A -> M W B) s Q :
  ensures (k (f s)) s Q -> ensures (bind (gets f) k) s Q.
Proof. intros Hk b s' es E. rewrite bind_gets in E. exact (Hk b s' es E). Qed.

Lemma communicate_ensures_framed fuel command sendData timeoutMs s :
  ensures (communicateWithPICC fuel command sendData timeoutMs) s
          (fun _ es => wellFramed (_sdaPin s) es).
Proof.
  eapply ensures_weaken; [apply communicateWithPICC_ensures|].
  intros r es Ht. exact (wellFramed_commTrace _ _ _ _ _ _ Ht).
Qed.

Lemma calculateCRC_yields_framed data s :
  yields (calculateCRC data) s (fun _ es => wellFramed (_sdaPin s) es).
Proof.
  eapply yields_weaken; [apply calculateCRC_yields|].
  intros r es (d & polls & -> & Hp). exact (wellFramed_crc _ _ _ _ _ Hp).
Qed.

Lemma tagPresent_ensures fuel s :
  ensures (tagPresent fuel) s (fun _ es => wellFramed (_sdaPin s) es).
Proof.
  unfold tagPresent. apply ensures_gets_bind.
  destruct (_initialized s); cbn [negb];
    [|apply yields_ensures, yields_ret, framed_nil].
  estep writeRegister_yields as u ->.
  eapply ensures_bind; [apply communicate_ensures_framed|].
  cbn beta. intros r e wc Hf. tidy.
  apply yields_ensures, yields_ret. rewrite app_nil_r. auto with framed.
Qed.

Lemma readUID_ensures fuel s :
  ensures (readUID fuel) s (fun _ es => wellFramed (_sdaPin s) es).
Proof.
  unfold readUID. apply ensures_gets_bind.
  destruct (_initialized s); cbn [negb];
    [|apply yields_ensures, yields_ret, framed_nil].
  estep writeRegister_yields as u ->.
  eapply ensures_bind; [apply communicate_ensures_framed|].
  cbn beta. intros r1 e1 wc1 Hf1. tidy.
  destruct (negb (status r1) || (List.length (backData r1) =? 0)%nat).
  { apply yields_ensures, yields_ret. rewrite app_nil_r. auto with framed. }
  estep writeRegister_yields as u2 ->.
  eapply ensures_bind; [apply communicate_ensures_framed|].
  cbn beta. intros r2 e2 wc2 Hf2. tidy.
  destruct (negb (status r2) || (List.length (backData r2) <? 5)%nat).
  { apply yields_ensures, yields_ret. rewrite app_nil_r. auto 8 with framed. }
  eapply ensures_bind with (Q1 := fun _ es => es = []).
  { apply yields_ensures.
    match goal with
    | |- context [if ?c then ret tt else ret tt] => destruct c
    end; apply yields_ret; reflexivity. }
  cbn beta. intros u3 e3 wc3 ->. tidy.
  apply yields_ensures, yields_ret. cbn [app]. rewrite app_nil_r.
  auto 8 with framed.
Qed.

Lemma haltTag_ensures fuel s :
  ensures (haltTag fuel) s (fun _ es => wellFramed (_sdaPin s) es).
Proof.
  unfold haltTag. apply ensures_gets_bind.
  destruct (_initialized s); cbn [negb];
    [|apply yields_ensures, yields_ret, framed_nil].
  eapply ensures_bind; [apply yields_ensures, calculateCRC_yields_framed|].
  cbn beta. intros crc e1 wc1 Hf1. tidy.
  eapply ensures_bind; [apply communicate_ensures_framed|].
  cbn beta. intros r e2 wc2 Hf2. tidy.
  apply yields_ensures, yields_ret. rewrite app_nil_r. auto with framed.
Qed.

(** X12.  Whenever [tagPresent], [readUID] or [haltTag] returns, and
    always for [readReg], the operation has left the pins and the
    initialized flag of the module as they were, and its traffic keeps the
    bus discipline on the chip-select pin: whole register accesses, each in
    its own bracket, chip-select released at the end on every path; no other
    pin (the reset pin included) is driven and the SPI setup is not
    touched. *)
Theorem public_operations_discipline fuel addr s :
  ensures (tagPresent fuel) s (fun _ es => wellFramed (_sdaPin s) es) /\
  ensures (readUID fuel) s (fun _ es => wellFramed (_sdaPin s) es) /\
  ensures (haltTag fuel) s (fun _ es => wellFramed (_sdaPin s) es) /\
  yields (readReg addr) s (fun _ es => wellFramed (_sdaPin s) es).
Proof.
  split; [apply tagPresent_ensures|].
  split; [apply readUID_ensures|].
  split; [apply haltTag_ensures|].
  eapply yields_weaken; [apply readRegister_yields|].
  intros v es ->. apply wellFramed_rd.
Qed.

(** X13.  [tagPresent] and [readUID] agree on the request stage.  When
    [tagPresent] answers false on an initialized driver, [readUID] from the
    same state answers the empty text after the very same traffic and ends
    in the same state.  When [tagPresent] answers true, [readUID] goes on
    past that traffic: whatever it returns, its traffic continues with the
    write that resets the bit-framing register to whole bytes. *)
Theorem tagPresent_agrees_with_readUID fuel s b s' es :
  _initialized s = true ->
  tagPresent fuel s = Some (b, s', es) ->
  (b = false -> readUID fuel s = Some (EmptyString, s', es)) /\
  (b = true ->
   forall text s2 es2,
     readUID fuel s = Some (text, s2, es2) ->
     exists more,
       es2 = es ++ wrFrame (_sdaPin s) BitFramingReg 0x00 ++ more).
Proof.
  intros Hi Ht. unfold tagPresent in Ht. rewrite bind_gets, Hi in Ht.
  cbn [negb] in Ht.
  apply bind_inv in Ht as ([] & s0 & e0 & ex & Hw0 & Ht & ->).
  apply bind_inv in Ht as (r1 & s1 & e1 & ey & Hc1 & Ht & ->).
  inversion Ht; subst; clear Ht. rewrite app_nil_r.
  unfold readUID. rewrite bind_gets, Hi. cbn [negb].
  rewrite (bind_eq _ _ _ _ _ _ Hw0), (bind_eq _ _ _ _ _ _ Hc1).
  assert (Hcond : negb (status r1) || (List.length (backData r1) =? 0)%nat =
                  negb (status r1 && (0 <? List.length (backData r1))%nat)).
  { destruct (status r1); destruct (backData r1); reflexivity. }
  rewrite Hcond. split.
  - intros ->. cbn. rewrite app_nil_r. reflexivity.
  - intros ->. cbn [negb]. intros text s2 es2 E.
    destruct (yields_ensures _ _ _ (writeRegister_yields BitFramingReg 7 s)
                _ _ _ Hw0) as [[w0 ->] _].
    destruct (communicateWithPICC_ensures _ _ _ _ _ _ _ _ Hc1) as [[w1 ->] _].
    destruct (writeRegister_yields BitFramingReg 0 (setWorld w1 (setWorld w0 s)))
      as ([] & w2 & e2 & Hw2 & ->).
    rewrite (bind_eq _ _ _ _ _ _ Hw2) in E.
    match type of E with
    | context [bind ?m ?k ?st] =>
        destruct (bind m k st) as [[[x sx] ez]|]; [|discriminate E]
    end.
    inversion E; subst; clear E.
    exists ez. rewrite <- app_assoc. reflexivity.
Qed.

(** X14.  Whatever the transport does, the text [readUID] returns is
    either empty or the text of exactly four elements: eleven characters,
    four groups of two upper-case hexadecimal digits.  A shorter or longer
    identifier is never returned. *)
Theorem readUID_text_shape fuel s text s' es :
  readUID fuel s = Some (text, s', es) ->
  text = EmptyString \/
  exists uid4,
    List.length uid4 = 4%nat /\
    text = Hex.toHexString uid4 /\
    String.length text = 11%nat /\
    parseHex text = map (fun x => Z.land x 0xFF) uid4.
Proof.
  intros E. unfold readUID in E. rewrite bind_gets in E.
  destruct (_initialized s); cbn [negb] in E;
    [|inversion E; left; reflexivity].
  apply bind_inv in E as ([] & s0 & e0 & ex & _ & E & ->).
  apply bind_inv in E as (r1 & s1 & e1 & ey & _ & E & ->).
  destruct (negb (status r1) || (List.length (backData r1) =? 0)%nat);
    [inversion E; left; reflexivity|].
  apply bind_inv in E as ([] & s2 & e2 & ez & _ & E & ->).
  apply bind_inv in E as (r2 & s3 & e3 & et & _ & E & ->).
  destruct (negb (status r2) || (List.length (backData r2) <? 5)%nat);
    [inversion E; left; reflexivity|].
  apply bind_inv in E as ([] & s4 & e4 & eu & _ & E & ->).
  inversion E; subst; clear E. right.
  eexists. split; [|split; [reflexivity|split]].
  - reflexivity.
  - rewrite toHexString_length_eq. reflexivity.
  - apply parseHex_toHexString.
Qed.

Lemma waited_clock sda waitIRq start timeoutMs polls :
  waited sda waitIRq start timeoutMs polls ->
  Forall (fun now => now - start <= timeoutMs) (removelast (clockReads polls)).
Proof.
  induction 1 as [n Hn|n Hn Ht|n now Hn Ht Ho|n now es Hn Ht Ho Hw IH].
  1-3: cbn; constructor.
  change (clockReads (rdFrame sda CommIrqReg n ++ RunningTime now :: es))
    with (now :: clockReads es).
  destruct (clockReads es) as [|x l] eqn:El; [constructor|].
  change (removelast (now :: x :: l)) with (now :: removelast (x :: l)).
  constructor; [exact Ho | exact IH].
Qed.

(** X17.  The clock is read once before the wait loop and then once per
    poll that showed no flag.  Every reading but the last is within
    [timeoutMs] of the first: the loop is left on the first reading found
    past the timeout and never polls again after it. *)
Theorem communicate_clock_readings fuel command sendData timeoutMs s r s' es :
  communicateWithPICC fuel command sendData timeoutMs s = Some (r, s', es) ->
  exists start later,
    clockReads es = start :: later /\
    Forall (fun now => now - start <= timeoutMs) (removelast later) /\
    (List.length later < List.length (spiReads es))%nat.
Proof.
  intros E.
  destruct (communicateWithPICC_ensures _ _ _ _ _ _ _ _ E)
    as [_ (c & f & b & start & polls & bf & error & irq & post & -> & Hw & Ho)].
  pose proof (commOutcome_post _ _ _ _ _ _ Ho) as [Hcp _].
  set (sda := _sdaPin s) in *.
  exists start, (clockReads polls).
  assert (Hc : clockReads
                 (commSetup sda command sendData c f b ++
                  RunningTime start
                  :: polls ++
                     clearBitFrames sda BitFramingReg 128 bf ++
                     rdFrame sda ErrorReg error ++
                     rdFrame sda CommIrqReg irq ++ post) =
               start :: clockReads polls).
  { rewrite clockReads_app, clockReads_commSetup.
    change (clockReads (RunningTime start :: ?x)) with (start :: clockReads x).
    cbn [app]. f_equal. rewrite !clockReads_app, Hcp.
    cbn. apply app_nil_r. }
  split; [exact Hc|]. split; [exact (waited_clock _ _ _ _ _ Hw)|].
  rewrite spiReads_app.
  change (spiReads (RunningTime start :: ?x)) with (spiReads x).
  rewrite !spiReads_app, !length_app.
  assert (Hp : (List.length (clockReads polls) <= List.length (spiReads polls))%nat).
  { clear -Hw.
    induction Hw as [n Hn|n Hn Ht|n now Hn Ht Ho|n now es Hn Ht Ho Hw IH];
      cbn; lia. }
  cbn [spiReads rdFrame clearBitFrames app List.length]. lia.
Qed.

(** ** The lifecycle manager, further *)

(** X15.  [init] returns from every state, already initialized or not.
    Afterwards the chip-select and reset pins of the module are the ones
    given, the SPI pins are as before and the driver is initialized.  Its
    traffic starts by driving chip-select and reset high and setting the SPI
    up at 1 MHz before any byte goes over the bus; everything after that is
    whole register accesses on the new chip-select pin.  It clocks in
    exactly one byte and never reads the clock. *)
Theorem init_postcondition sdaPin rstPin s :
  exists s' es,
    init sdaPin rstPin s = Some (tt, s', es) /\
    _sdaPin s' = sdaPin /\ _rstPin s' = rstPin /\ _initialized s' = true /\
    _sckPin s' = _sckPin s /\ _mosiPin s' = _mosiPin s /\
    _misoPin s' = _misoPin s /\
    (exists rest,
        es = [DigitalWrite sdaPin 1; DigitalWrite rstPin 1;
              SpiPins (_misoPin s) (_mosiPin s) (_sckPin s);
              SpiFrequency 1000000] ++ rest /\
        wellFramed sdaPin rest) /\
    List.length (spiReads es) = 1%nat /\
    clockReads es = [].
Proof.
  destruct (init_run sdaPin rstPin s) as ([] & s' & es & E & w & v & -> & ->).
  do 2 eexists. split; [exact E|]. cbn [_sdaPin _rstPin _initialized _sckPin
                                         _mosiPin _misoPin].
  do 6 (split; [reflexivity|]).
  unfold initTrace. split; [|split].
  - eexists. split; [reflexivity|].
    destruct (negb (Z.land v 3 =? 3)); auto 20 with framed.
  - destruct (negb (Z.land v 3 =? 3)); reflexivity.
  - destruct (negb (Z.land v 3 =? 3)); reflexivity.
Qed.

End Logic.

(** * The driver against the two transports *)

(** ** The register file has a ticking clock *)

(** Against the register file every call of the command engine returns:
    its clock moves on by one with every reading. *)
Corollary communicateWithPICC_returns_RegFile fuel command sendData timeoutMs
    (s : St RegFile.world) :
  (Z.to_nat timeoutMs + 2 <= fuel)%nat ->
  exists r w es,
    communicateWithPICC fuel command sendData timeoutMs s =
      Some (r, setWorld w s, es) /\
    commTrace (_sdaPin s) command sendData timeoutMs r es.
Proof.
  apply (communicateWithPICC_returns RegFile.clock 0 1); try lia.
  - reflexivity.
  - intros w. cbn. lia.
  - intros p l w. cbn. unfold RegFile.select.
    destruct (RegFile.pinEq p (RegFile.cs w)); cbn; lia.
  - intros b w. cbn. unfold RegFile.send.
    destruct (RegFile.addrByte w) as [a|]; [destruct (Z.testbit a 7)|]; cbn; lia.
  - intros w. cbn. unfold RegFile.receive.
    destruct (RegFile.addrByte w); cbn; lia.
Qed.

(** ** The framing against the register file *)

Lemma pinEq_refl p : RegFile.pinEq p p = true.
Proof. destruct p; reflexivity. Qed.

Lemma regOf_framed addr :
  0 <= addr <= 63 ->
  RegFile.regOf (Z.land (Z.shiftl addr 1) 0x7E) = addr /\
  RegFile.regOf (Z.lor (Z.land (Z.shiftl addr 1) 0x7E) 0x80) = addr /\
  Z.testbit (Z.land (Z.shiftl addr 1) 0x7E) 7 = false.
Proof.
  intros Hr.
  assert (Hn : exists n, (n < 64)%nat /\ addr = Z.of_nat n)
    by (exists (Z.to_nat addr); lia).
  destruct Hn as (n & Hn & ->). clear Hr.
  do 64 (destruct n as [|n]; [repeat split; reflexivity|]).
  lia.
Qed.

(** X18.  The write framing and the read framing agree with each other
    and with the address-byte layout of the chip.  Against a register file
    that decodes address bytes that way (bit 7 read/write, bits 6..1 the
    address) and is selected by the driver's chip-select pin, for every
    address between 0 and 63: [writeRegister] changes the addressed register
    to the value given and no other register, and a [readRegister] of the
    same address afterwards returns that value and changes nothing. *)
Theorem regfile_write_then_read addr v (s : St RegFile.world) :
  0 <= addr <= 63 ->
  RegFile.cs (world s) = _sdaPin s ->
  exists s1 e1 s2 e2,
    writeRegister addr v s = Some (tt, s1, e1) /\
    readRegister addr s1 = Some (v, s2, e2) /\
    RegFile.regs (world s1) addr = v /\
    (forall other, other <> addr ->
       RegFile.regs (world s1) other = RegFile.regs (world s) other) /\
    (forall any, RegFile.regs (world s2) any = RegFile.regs (world s1) any).
Proof.
  intros Hr Hcs.
  destruct (regOf_framed addr Hr) as (Hw & Hrd & Hb).
  destruct s as [[regs cs ab clk] sda rst sck mosi miso ini].
  cbn in Hcs. subst cs.
  unfold writeRegister, readRegister.
  set (wa := Z.land (Z.shiftl addr 1) 0x7E) in *.
  set (ra := Z.lor wa 0x80) in *.
  cbv [bind gets ret digitalWritePin spiWrite spiRead pins_digitalWritePin
       pins_spiWrite pins_spiRead RegFile.platform RegFile.select RegFile.send
       RegFile.receive setWorld world _sdaPin _rstPin _sckPin _mosiPin _misoPin
       _initialized RegFile.cs RegFile.regs RegFile.addrByte RegFile.clock app].
  rewrite !pinEq_refl, Hb.
  do 4 eexists. split; [reflexivity|].
  cbv [bind gets ret digitalWritePin spiWrite spiRead pins_digitalWritePin
       pins_spiWrite pins_spiRead RegFile.platform RegFile.select RegFile.send
       RegFile.receive setWorld world _sdaPin _rstPin _sckPin _mosiPin _misoPin
       _initialized RegFile.cs RegFile.regs RegFile.addrByte RegFile.clock app].
  rewrite !pinEq_refl, Hw, Hrd. unfold RegFile.store. rewrite Z.eqb_refl.
  split; [reflexivity|]. split; [reflexivity|].
  split; [|reflexivity].
  intros other Ho. apply Z.eqb_neq in Ho. rewrite Ho. reflexivity.
Qed.

Lemma regfile_read addr (s : St RegFile.world) :
  0 <= addr <= 63 ->
  RegFile.cs (world s) = _sdaPin s ->
  exists w,
    readRegister addr s =
      Some (RegFile.regs (world s) addr, setWorld w s,
            rdFrame (_sdaPin s) addr (RegFile.regs (world s) addr)) /\
    RegFile.regs w = RegFile.regs (world s) /\
    RegFile.cs w = _sdaPin s.
Proof.
  intros Hr Hcs.
  destruct (regOf_framed addr Hr) as (Hw & Hrd & Hb).
  destruct s as [[regs cs ab clk] sda rst sck mosi miso ini].
  cbn in Hcs. subst cs.
  unfold readRegister, rdFrame.
  set (wa := Z.land (Z.shiftl addr 1) 0x7E) in *.
  set (ra := Z.lor wa 0x80) in *.
  cbv [bind gets ret digitalWritePin spiWrite spiRead pins_digitalWritePin
       pins_spiWrite pins_spiRead RegFile.platform RegFile.select RegFile.send
       RegFile.receive setWorld world _sdaPin _rstPin _sckPin _mosiPin _misoPin
       _initialized RegFile.cs RegFile.regs RegFile.addrByte RegFile.clock app].
  rewrite !pinEq_refl, Hrd. cbv beta iota. rewrite ?pinEq_refl.
  eexists. split; [reflexivity|]. split; reflexivity.
Qed.

Lemma regfile_write addr v (s : St RegFile.world) :
  0 <= addr <= 63 ->
  RegFile.cs (world s) = _sdaPin s ->
  exists w,
    writeRegister addr v s = Some (tt, setWorld w s, wrFrame (_sdaPin s) addr v) /\
    RegFile.regs w = RegFile.store addr v (RegFile.regs (world s)) /\
    RegFile.cs w = _sdaPin s.
Proof.
  intros Hr Hcs.
  destruct (regOf_framed addr Hr) as (Hw & Hrd & Hb).
  destruct s as [[regs cs ab clk] sda rst sck mosi miso ini].
  cbn in Hcs. subst cs.
  unfold writeRegister, wrFrame.
  set (wa := Z.land (Z.shiftl addr 1) 0x7E) in *.
  cbv [bind gets ret digitalWritePin spiWrite spiRead pins_digitalWritePin
       pins_spiWrite pins_spiRead RegFile.platform RegFile.select RegFile.send
       RegFile.receive setWorld world _sdaPin _rstPin _sckPin _mosiPin _misoPin
       _initialized RegFile.cs RegFile.regs RegFile.addrByte RegFile.clock app].
  rewrite !pinEq_refl, Hb, Hw. cbv beta iota. rewrite ?pinEq_refl.
  eexists. split; [reflexivity|]. split; reflexivity.
Qed.

(** X19.  Against that register file [antennaOn] is idempotent: after one
    call the transmit-control register has both low bits set and each of
    its bits 2 to 31 as before, and a second call right after it writes
    nothing and changes no register. *)
Theorem regfile_antennaOn_idempotent (s : St RegFile.world) :
  RegFile.cs (world s) = _sdaPin s ->
  exists s1 e1 s2 e2,
    antennaOn s = Some (tt, s1, e1) /\
    antennaOn s1 = Some (tt, s2, e2) /\
    Z.land (RegFile.regs (world s1) TxControlReg) 0x03 = 0x03 /\
    (forall i, 2 <= i < 32 ->
       Z.testbit (RegFile.regs (world s1) TxControlReg) i =
       Z.testbit (RegFile.regs (world s) TxControlReg) i) /\
    registerWrites e2 = [] /\
    RegFile.regs (world s2) = RegFile.regs (world s1).
Proof.
  intros Hcs.
  assert (Hr : 0 <= TxControlReg <= 63) by (unfold TxControlReg; lia).
  set (v := RegFile.regs (world s) TxControlReg).
  assert (Hsecond : forall s1 : St RegFile.world,
             RegFile.cs (world s1) = _sdaPin s1 ->
             Z.land (RegFile.regs (world s1) TxControlReg) 3 = 3 ->
             exists s2 e2,
               antennaOn s1 = Some (tt, s2, e2) /\
               registerWrites e2 = [] /\
               RegFile.regs (world s2) = RegFile.regs (world s1)).
  { intros s1 Hcs1 Hon.
    destruct (regfile_read TxControlReg s1 Hr Hcs1) as (w & E & Hregs & _).
    unfold antennaOn.
    rewrite (bind_eq _ _ _ _ _ _ E), (bitAnd_mask _ 3 ltac:(lia)), Hon.
    cbn [Z.eqb Pos.eqb negb ret]. do 2 eexists.
    split; [reflexivity|]. split; [reflexivity | exact Hregs]. }
  destruct (regfile_read TxControlReg s Hr Hcs) as (w0 & E0 & Hregs0 & Hcs0).
  fold v in E0.
  destruct (Z.land v 3 =? 3) eqn:Eb.
  - apply Z.eqb_eq in Eb.
    assert (H1 : antennaOn s = Some (tt, setWorld w0 s, rdFrame (_sdaPin s) TxControlReg v ++ [])).
    { unfold antennaOn.
      rewrite (bind_eq _ _ _ _ _ _ E0), (bitAnd_mask _ 3 ltac:(lia)), Eb.
      reflexivity. }
    destruct (Hsecond (setWorld w0 s)) as (s2 & e2 & E2 & Hw2 & Hr2).
    + exact Hcs0.
    + cbn [world setWorld]. rewrite Hregs0. exact Eb.
    + do 4 eexists. split; [exact H1|]. split; [exact E2|].
      cbn [world setWorld] in Hr2 |- *. rewrite Hregs0. fold v.
      repeat split; try assumption. congruence.
  - destruct (regfile_write TxControlReg (bitOr v 3) (setWorld w0 s) Hr Hcs0)
      as (w1 & E1 & Hregs1 & Hcs1).
    cbn [world setWorld _sdaPin] in E1, Hregs1, Hcs1.
    assert (H1 : antennaOn s =
                 Some (tt, setWorld w1 s,
                       rdFrame (_sdaPin s) TxControlReg v ++
                       wrFrame (_sdaPin s) TxControlReg (bitOr v 3))).
    { unfold antennaOn.
      rewrite (bind_eq _ _ _ _ _ _ E0), (bitAnd_mask _ 3 ltac:(lia)), Eb.
      cbn [negb]. rewrite E1. reflexivity. }
    assert (Hv1 : RegFile.regs w1 TxControlReg = bitOr v 3).
    { rewrite Hregs1. unfold RegFile.store. rewrite Z.eqb_refl. reflexivity. }
    destruct (Hsecond (setWorld w1 s)) as (s2 & e2 & E2 & Hw2 & Hr2).
    + exact Hcs1.
    + cbn [world setWorld]. rewrite Hv1. apply bitOr_low_bits.
    + do 4 eexists. split; [exact H1|]. split; [exact E2|].
      cbn [world setWorld] in Hr2 |- *. rewrite Hv1.
      split; [apply bitOr_low_bits|].
      split; [intros i Hi; apply bitOr_high_bits, Hi|].
      split; assumption.
Qed.

(** ** Register access layer *)

Lemma register_access_framing_witness :
  let s := RegFile.fresh [(0x37, 0x92)] in
  0 <= 0x37 <= 63 /\
  writeRegister 0x37 0xAB s =
    Some (tt,
          setWorld
            (pins_digitalWritePin P8 1
               (pins_spiWrite 0xAB
                  (pins_spiWrite 0x6E (pins_digitalWritePin P8 0 (world s))))) s,
          [DigitalWrite P8 0; SpiWrite 0x6E; SpiWrite 0xAB; DigitalWrite P8 1]) /\
  (exists w,
      readRegister 0x37 s =
      Some (0x92, setWorld w s,
            [DigitalWrite P8 0; SpiWrite 0xEE; SpiRead 0x92; DigitalWrite P8 1])).
Proof.
  intros s.
  assert (Hr : 0 <= 0x37 <= 63) by lia.
  destruct (register_access_framing 0x37 0xAB s Hr) as (Hw & Hrd & _ & _).
  split; [exact Hr|]. split; [exact Hw|].
  eexists. exact Hrd.
Defined.

(** [calculateCRC([])] over a transport that reports CRC-ready at once
    returns the bytes held at 0x22 and 0x21, low first. *)
Example calculateCRC_ready_at_once :
  exists s' es,
    calculateCRC [] (RegFile.fresh [(0x22, 0xAB); (0x21, 0xCD)]) =
    Some ([0xAB; 0xCD], s', es).
Proof. do 2 eexists. vm_compute. reflexivity. Qed.

(** Over a transport that never reports CRC-ready, [calculateCRC] gives
    up after 255 polls (256 bytes received: one for the flag clearing, 255
    polls) and returns (0, 0). *)
Example calculateCRC_exhausted :
  exists s' es,
    calculateCRC [PICC_HALT; 0x00] (Scripted.fresh [] 0) = Some ([0; 0], s', es) /\
    List.length (spiReads es) = 256%nat /\ clockReads es = [].
Proof. do 2 eexists. split; [|split]; vm_compute; reflexivity. Qed.

(** ** Command engine *)

(** C1: the failing run.  The transport answers 0 to every read, so the
    communication-interrupt register never shows the wait flags nor the
    timer bit, and its clock moves on by 100 ms per byte.  With
    [timeoutMs = 50] the wait loop is left on the elapsed-time test (clock
    readings 300 and 400), and the call then reports success. *)
Lemma communicate_software_timeout_reports_success :
  exists s' es,
    communicateWithPICC 5 PCD_TRANSCEIVE [PICC_REQIDL] 50 (Scripted.ready [] 100) =
    Some (mkCommResult true [] 0, s', es) /\
    Forall (fun v => Z.land v 0x31 = 0) (spiReads es) /\
    clockReads es = [300; 400].
Proof.
  do 2 eexists. split; [vm_compute; reflexivity|].
  split; [|vm_compute; reflexivity].
  vm_compute. repeat constructor.
Qed.

Lemma communicate_failure_iff_witness :
  exists r s' es,
    communicateWithPICC 1 PCD_TRANSCEIVE [PICC_REQIDL] 200
      (Scripted.ready [0; 0; 0; 0x30; 0; 0x08; 0x30] 1) = Some (r, s', es) /\
    r = mkCommResult false [] 0 /\
    exists setup start polls bf error irq post,
      es = setup ++ RunningTime start :: polls ++
           clearBitFrames P8 BitFramingReg 0x80 bf ++
           rdFrame P8 ErrorReg error ++
           rdFrame P8 CommIrqReg irq ++
           post /\
      waited P8 0x30 start 200 polls /\
      (status r = false <-> Z.land irq 0x01 <> 0 \/ Z.land error 0x1B <> 0) /\
      (status r = false -> r = mkCommResult false [] 0 /\ post = []) /\
      played (world (Scripted.ready [0; 0; 0; 0x30; 0; 0x08; 0x30] 1)) es (world s') /\
      exists w2,
        played (world (Scripted.ready [0; 0; 0; 0x30; 0; 0x08; 0x30] 1))
               (setup ++ RunningTime start :: polls ++
                clearBitFrames P8 BitFramingReg 0x80 bf) w2 /\
        error = rdAnswer P8 ErrorReg w2 /\
        irq = rdAnswer P8 CommIrqReg (rdWorld P8 ErrorReg w2) /\
        played (rdWorld P8 CommIrqReg (rdWorld P8 ErrorReg w2)) post (world s').
Proof.
  do 3 eexists. split; [vm_compute; reflexivity|]. split; [reflexivity|].
  refine (communicate_failure_iff 1 PCD_TRANSCEIVE [PICC_REQIDL] 200
            (Scripted.ready [0; 0; 0; 0x30; 0; 0x08; 0x30] 1) _ _ _ _).
  vm_compute. reflexivity.
Defined.

(** C3: a command other than TRANSCEIVE against a transport on which no
    interrupt flag ever shows.  The call does not proceed at once: it polls
    until the clock reading 51 is past the timeout of 50. *)
Lemma communicate_idle_waits_for_timeout :
  exists r s' es,
    PCD_IDLE <> PCD_TRANSCEIVE /\
    communicateWithPICC 60 PCD_IDLE [] 50 (RegFile.ready []) = Some (r, s', es) /\
    Forall (fun v => v = 0) (spiReads es) /\
    clockReads es = map Z.of_nat (seq 0 52) /\
    ~ returnsBeforeTimeout 50 es.
Proof.
  do 3 eexists. split; [discriminate|].
  split; [vm_compute; reflexivity|].
  split; [vm_compute; repeat constructor|].
  split; [vm_compute; reflexivity|].
  unfold returnsBeforeTimeout.
  intros Hall. cbv beta iota delta [clockReads] in Hall.
  rewrite Forall_forall in Hall.
  assert (H51 : 51 - 0 <= 50);
    [apply Hall; repeat (first [left; reflexivity | right]) | lia].
Qed.

Lemma communicate_other_commands_wait_witness :
  exists r s' es,
    PCD_IDLE <> PCD_TRANSCEIVE /\
    communicateWithPICC 60 PCD_IDLE [0x11] 50 (RegFile.ready []) = Some (r, s', es) /\
    irqMasks PCD_IDLE = (0x12, 0x00) /\
    exists c f start polls rest,
      es = wrFrame P8 CommIEnReg (Z.lor 0x12 0x80) ++
           clearBitFrames P8 CommIrqReg 0x80 c ++
           setBitFrames P8 FIFOLevelReg 0x80 f ++
           wrFrame P8 CommandReg PCD_IDLE ++
           wrFrames P8 FIFODataReg [0x11] ++
           wrFrame P8 CommandReg PCD_IDLE ++
           RunningTime start :: polls ++ rest /\
      waited P8 0x00 start 50 polls /\
      ((exists before n,
           polls = before ++ rdFrame P8 CommIrqReg n /\ Z.land n 0x01 <> 0) \/
       (exists before now,
           polls = before ++ [RunningTime now] /\ now - start > 50)).
Proof.
  assert (Hc : PCD_IDLE <> PCD_TRANSCEIVE) by discriminate.
  do 3 eexists. split; [exact Hc|]. split; [vm_compute; reflexivity|].
  refine (communicate_other_commands_wait 60 PCD_IDLE [0x11] 50
            (RegFile.ready []) _ _ _ Hc _).
  vm_compute. reflexivity.
Defined.

(** ** Identifier resolution *)

(** The card answers the request with ATQA [04 00] and the anticollision
    with identifier [12 34 56 78] and a fifth byte [FF] that is not their
    exclusive-OR (which is [08]): the identifier is returned all the same. *)
Lemma readUID_identifier_witness :
  let s := Scripted.ready
             (Scripted.exchange [0x04; 0x00] ++
              Scripted.exchange [0x12; 0x34; 0x56; 0x78; 0xFF]) 1 in
  exists r2 s3 es,
    (readUID 1 s = Some (Hex.toHexString (firstn 4 (backData r2)), s3, es) /\
     parseHex (Hex.toHexString (firstn 4 (backData r2))) =
       map (fun x => Z.land x 0xFF) (firstn 4 (backData r2)) /\
     List.length (firstn 4 (backData r2)) = 4%nat) /\
    backData r2 = [0x12; 0x34; 0x56; 0x78; 0xFF] /\
    Z.lxor (Z.lxor (Z.lxor 0x12 0x34) 0x56) 0x78 <> 0xFF /\
    Hex.toHexString (firstn 4 (backData r2)) = "12:34:56:78"%string.
Proof.
  intros s.
  pose proof (fun s0 e0 r1 s1 e1 s2 e2 r2 s3 e3 =>
                readUID_identifier 1 s s0 e0 r1 s1 e1 s2 e2 r2 s3 e3 eq_refl) as T.
  do 3 eexists. split.
  - eapply T.
    + vm_compute; reflexivity.
    + vm_compute; reflexivity.
    + reflexivity.
    + discriminate.
    + vm_compute; reflexivity.
    + vm_compute; reflexivity.
    + reflexivity.
    + cbn. lia.
  - split; [reflexivity|]. split; [discriminate | reflexivity].
Defined.

(** With the right fifth byte [08] the answer is the same text. *)
Example readUID_checksum_right :
  exists s3 es,
    readUID 1 (Scripted.ready
                 (Scripted.exchange [0x04; 0x00] ++
                  Scripted.exchange [0x12; 0x34; 0x56; 0x78; 0x08]) 1) =
    Some ("12:34:56:78"%string, s3, es).
Proof. do 2 eexists. vm_compute. reflexivity. Qed.

Lemma readUID_not_found_witness :
  (exists s1 es,
      readUID 1 (Scripted.ready (Scripted.exchange []) 1) =
      Some (EmptyString, s1, es) /\
      spiReads es = Scripted.exchange []) /\
  (exists s3 es,
      readUID 1 (Scripted.ready
                   (Scripted.exchange [0x04; 0x00] ++
                    Scripted.exchange [0x12; 0x34; 0x56]) 1) =
      Some (EmptyString, s3, es)).
Proof.
  split.
  - pose proof (fun s0 e0 r1 s1 e1 H0 H1 =>
                  proj1 (readUID_not_found 1
                           (Scripted.ready (Scripted.exchange []) 1)
                           s0 e0 r1 s1 e1 eq_refl H0 H1)) as T.
    do 2 eexists. split.
    + eapply T.
      * vm_compute; reflexivity.
      * vm_compute; reflexivity.
      * right. reflexivity.
    + vm_compute. reflexivity.
  - pose proof (fun s0 e0 r1 s1 e1 H0 H1 =>
                  proj2 (readUID_not_found 1
                           (Scripted.ready
                              (Scripted.exchange [0x04; 0x00] ++
                               Scripted.exchange [0x12; 0x34; 0x56]) 1)
                           s0 e0 r1 s1 e1 eq_refl H0 H1)) as T.
    do 2 eexists.
    eapply T.
    + vm_compute; reflexivity.
    + vm_compute; reflexivity.
    + reflexivity.
    + discriminate.
    + vm_compute; reflexivity.
    + vm_compute; reflexivity.
    + right. cbn. lia.
Defined.

(** ** Operations before [init] *)

Lemma uninitialized_operations_witness :
  let s := RegFile.fresh [(0x37, 0x92)] in
  _initialized s = false /\
  shortCircuits (tagPresent 0) s false /\
  shortCircuits (readUID 0) s EmptyString /\
  shortCircuits (haltTag 0) s tt /\
  exists v w, readReg 0x37 s = Some (v, setWorld w s, rdFrame P8 0x37 v).
Proof.
  intros s. split; [reflexivity|].
  exact (uninitialized_operations 0 0x37 s eq_refl).
Defined.

(** C8: before [init], the diagnostic read does not short-circuit; it
    selects the chip, sends the framed address, clocks a byte in and
    answers it. *)
Lemma readReg_uninitialized_reads_bus :
  let s := RegFile.fresh [(0x37, 0x92)] in
  _initialized s = false /\
  (exists s', readReg 0x37 s =
              Some (0x92, s',
                    [DigitalWrite P8 0; SpiWrite 0xEE; SpiRead 0x92;
                     DigitalWrite P8 1])) /\
  ~ (exists v, shortCircuits (readReg 0x37) s v).
Proof.
  intros s. split; [reflexivity|]. split.
  - eexists. vm_compute. reflexivity.
  - intros [v Hv]. unfold shortCircuits in Hv. vm_compute in Hv.
    discriminate Hv.
Qed.

(** ** Initialisation *)


(** ** Halt *)

(** The CRC coprocessor answers [AA BB]; the exchange that follows ends
    with the collision bit set in the error register and so fails;
    [haltTag] returns all the same. *)
Lemma haltTag_discards_result_witness :
  let s := Scripted.ready [0; 0x04; 0xAA; 0xBB; 0; 0; 0; 0x30; 0; 0x08; 0] 1 in
  exists crc s1 e1 r s2 e2,
    _initialized s = true /\
    calculateCRC [PICC_HALT; 0x00] s = Some (crc, s1, e1) /\
    communicateWithPICC 1 PCD_TRANSCEIVE
      [PICC_HALT; 0x00; nth 0 crc 0; nth 1 crc 0] 200 s1 = Some (r, s2, e2) /\
    crc = [0xAA; 0xBB] /\ status r = false /\
    haltTag 1 s = Some (tt, s2, e1 ++ e2).
Proof.
  intros s.
  pose proof (fun crc s1 e1 r s2 e2 H0 H1 =>
                proj1 (haltTag_discards_result 1 s crc s1 e1 r s2 e2
                         eq_refl H0 H1)) as T.
  do 6 eexists. split; [reflexivity|].
  split; [vm_compute; reflexivity|].
  split; [vm_compute; reflexivity|].
  split; [reflexivity|]. split; [reflexivity|].
  eapply T; [vm_compute; reflexivity | vm_compute; reflexivity].
Defined.

(** ** The identifier text *)

Lemma toHexString_round_trip_witness :
  Forall (fun x => 0 <= x <= 255) [0x04; 0xAB; 0x00; 0xFF] /\
  Hex.toHexString [0x04; 0xAB; 0x00; 0xFF] = "04:AB:00:FF"%string /\
  parseHex (Hex.toHexString [0x04; 0xAB; 0x00; 0xFF]) = [0x04; 0xAB; 0x00; 0xFF].
Proof.
  assert (Hb : Forall (fun x => 0 <= x <= 255) [0x04; 0xAB; 0x00; 0xFF])
    by (repeat constructor; lia).
  split; [exact Hb|]. split; [reflexivity|].
  exact (toHexString_round_trip _ Hb).
Defined.

(** ** Further witnesses *)

Lemma communicate_bus_discipline_witness :
  let s := Scripted.ready (Scripted.exchange [0x04; 0x00]) 1 in
  exists r s' es,
    communicateWithPICC 1 PCD_TRANSCEIVE [PICC_REQIDL] 200 s = Some (r, s', es) /\
    (exists w, s' = setWorld w s) /\ wellFramed P8 es.
Proof.
  intros s. do 3 eexists. split; [vm_compute; reflexivity|].
  refine (communicate_bus_discipline 1 PCD_TRANSCEIVE [PICC_REQIDL] 200 s _ _ _ _).
  vm_compute. reflexivity.
Defined.

Lemma communicate_register_writes_witness :
  let s := Scripted.ready (Scripted.exchange [0x04; 0x00]) 1 in
  exists r s' es,
    communicateWithPICC 1 PCD_TRANSCEIVE [PICC_REQIDL] 200 s = Some (r, s', es) /\
    exists c f b bf,
      registerWrites es = commWrites PCD_TRANSCEIVE [PICC_REQIDL] c f b bf /\
      (exists before last,
          registerWrites es = before ++ [(0x1A, last)] /\
          Z.testbit last 7 = false).
Proof.
  intros s. do 3 eexists. split; [vm_compute; reflexivity|].
  refine (communicate_register_writes 1 PCD_TRANSCEIVE [PICC_REQIDL] 200 s _ _ _ _).
  vm_compute. reflexivity.
Defined.


Lemma communicate_first_poll_witness :
  let s := Scripted.ready (Scripted.exchange [0x04; 0x00]) 1 in
  exists r s' es,
    communicateWithPICC 1 PCD_TRANSCEIVE [PICC_REQIDL] 0 s = Some (r, s', es) /\
    exists setup start n rest,
      es = setup ++ RunningTime start :: rdFrame P8 CommIrqReg n ++ rest /\
      clockReads setup = [] /\
      (Z.land n 0x30 <> 0 \/ Z.land n 0x01 <> 0 -> clockReads es = [start]).
Proof.
  intros s. do 3 eexists. split; [vm_compute; reflexivity|].
  refine (communicate_first_poll 1 PCD_TRANSCEIVE [PICC_REQIDL] 0 s _ _ _ _).
  vm_compute. reflexivity.
Defined.

Lemma tagPresent_agrees_with_readUID_witness :
  let s := Scripted.ready (Scripted.exchange []) 1 in
  exists b s' es,
    _initialized s = true /\
    tagPresent 1 s = Some (b, s', es) /\
    b = false /\
    readUID 1 s = Some (EmptyString, s', es).
Proof.
  intros s. do 3 eexists. split; [reflexivity|].
  split; [vm_compute; reflexivity|]. split; [reflexivity|].
  refine (proj1 (tagPresent_agrees_with_readUID 1 s false _ _ eq_refl _) eq_refl).
  vm_compute. reflexivity.
Defined.

Lemma readUID_text_shape_witness :
  let s := Scripted.ready
             (Scripted.exchange [0x04; 0x00] ++
              Scripted.exchange [0xDE; 0xAD; 0xBE; 0xEF; 0x22; 0x99]) 1 in
  exists text s' es,
    readUID 1 s = Some (text, s', es) /\
    text = "DE:AD:BE:EF"%string /\
    (text = EmptyString \/
     exists uid4,
       List.length uid4 = 4%nat /\
       text = Hex.toHexString uid4 /\
       String.length text = 11%nat /\
       parseHex text = map (fun x => Z.land x 0xFF) uid4).
Proof.
  intros s. do 3 eexists. split; [vm_compute; reflexivity|].
  split; [reflexivity|].
  refine (readUID_text_shape 1 s _ _ _ _).
  vm_compute. reflexivity.
Defined.

Lemma public_operations_return_witness :
  let s := RegFile.ready [] in
  (202 <= 202)%nat /\
  (exists b w es, tagPresent 202 s = Some (b, setWorld w s, es)) /\
  (exists text w es, readUID 202 s = Some (text, setWorld w s, es)) /\
  (exists w es, haltTag 202 s = Some (tt, setWorld w s, es)).
Proof.
  intros s. split; [lia|].
  apply (public_operations_return RegFile.clock 0 1); try lia.
  - reflexivity.
  - intros w. cbn. lia.
  - intros p l w. cbn. unfold RegFile.select.
    destruct (RegFile.pinEq p (RegFile.cs w)); cbn; lia.
  - intros b w. cbn. unfold RegFile.send.
    destruct (RegFile.addrByte w) as [a|]; [destruct (Z.testbit a 7)|]; cbn; lia.
  - intros w. cbn. unfold RegFile.receive.
    destruct (RegFile.addrByte w); cbn; lia.
Defined.

Lemma regfile_write_then_read_witness :
  let s := RegFile.ready [(0x14, 0x80)] in
  0 <= 0x14 <= 63 /\
  RegFile.cs (world s) = _sdaPin s /\
  exists s1 e1 s2 e2,
    writeRegister 0x14 0x83 s = Some (tt, s1, e1) /\
    readRegister 0x14 s1 = Some (0x83, s2, e2) /\
    RegFile.regs (world s1) 0x14 = 0x83 /\
    (forall other, other <> 0x14 ->
       RegFile.regs (world s1) other = RegFile.regs (world s) other) /\
    (forall any, RegFile.regs (world s2) any = RegFile.regs (world s1) any).
Proof.
  intros s.
  assert (Hr : 0 <= 0x14 <= 63) by lia.
  split; [exact Hr|]. split; [reflexivity|].
  exact (regfile_write_then_read 0x14 0x83 s Hr eq_refl).
Defined.

Lemma regfile_antennaOn_idempotent_witness :
  let s := RegFile.ready [(0x14, 0x80)] in
  RegFile.cs (world s) = _sdaPin s /\
  exists s1 e1 s2 e2,
    antennaOn s = Some (tt, s1, e1) /\
    antennaOn s1 = Some (tt, s2, e2) /\
    Z.land (RegFile.regs (world s1) TxControlReg) 0x03 = 0x03 /\
    (forall i, 2 <= i < 32 ->
       Z.testbit (RegFile.regs (world s1) TxControlReg) i =
       Z.testbit (RegFile.regs (world s) TxControlReg) i) /\
    registerWrites e2 = [] /\
    RegFile.regs (world s2) = RegFile.regs (world s1).
Proof.
  intros s. split; [reflexivity|].
  exact (regfile_antennaOn_idempotent s eq_refl).
Defined.

Lemma communicate_clock_readings_witness :
  let s := RegFile.ready [] in
  exists r s' es,
    communicateWithPICC 10 PCD_IDLE [] 3 s = Some (r, s', es) /\
    clockReads es = [0; 1; 2; 3; 4] /\
    exists start later,
      clockReads es = start :: later /\
      Forall (fun now => now - start <= 3) (removelast later) /\
      (List.length later < List.length (spiReads es))%nat.
Proof.
  intros s. do 3 eexists. split; [vm_compute; reflexivity|].
  split; [vm_compute; reflexivity|].
  refine (communicate_clock_readings 10 PCD_IDLE [] 3 s _ _ _ _).
  vm_compute. reflexivity.
Defined.
